(** * HTTP inspection middleware of nestjs-common: a shallow embedding

    The development follows the two middleware files of the repository,
    [src/logger/http-inspector-inbound.middleware.ts] and
    [src/logger/log-http.middleware.ts]:

    - [Js]      the JavaScript values, string operations and the fragment of
                the RegExp engine the middleware relies on;
    - [Express] the response object with its two patchable emission slots,
                the closure cells and the log sink, as one request sees them;
    - [Inbound] [HttpInspectorInboundMiddleware] and
                [configureHttpInspectorInbound];
    - [Audit]   [LogHttpMiddleware];
    - [Lifecycle] one request through a registered middleware, up to the
                completion notification;
    - [Contract] the route matcher and the severity tiers as the
                specification words them.

    The properties follow: [RouteFacts] (route matching), [CaptureFacts]
    (body capture and pass-through), [LevelFacts] (severity) and
    [ConfigFacts] (installation).

    Strings are sequences of code units below 256 (the Latin-1 part of
    UTF-16); numbers that matter here (status codes, timestamps) are
    integers. *)

From stdpp Require Import base strings pretty list gmap.
From Stdlib Require Import Ascii ZArith Lia.

Local Open Scope Z_scope.

(** ** JavaScript values, strings and regular expressions *)
Module Js.

(** Values that travel as bodies, configuration values and exceptions. *)
#[local] Set Warnings "-register-all".
Inductive Value : Type :=
| Null
| Undefined
| Bool (b : bool)
| Number (z : Z)
| NaN
| Str (s : string)
| Array (items : list Value)
| Object (fields : list (string * Value)).
#[local] Set Warnings "register-all".

(** ToBoolean: what [!x] and [if (x)] look at. *)
Definition truthy (v : Value) : bool :=
  match v with
  | Null | Undefined | NaN => false
  | Bool b => b
  | Number z => negb (z =? 0)
  | Str s => negb (String.eqb s "")
  | Array _ | Object _ => true
  end.

(** How a call ends: with a value, or with a thrown exception. *)
Inductive Completion (A E : Type) : Type :=
| Normal (a : A)
| Abrupt (e : E).
Arguments Normal {A E} a.
Arguments Abrupt {A E} e.

Definition code (c : ascii) : N := N_of_ascii c.

(** WhiteSpace and LineTerminator code units below 256: TAB, LF, VT, FF,
    CR, SP and NBSP. [String.prototype.trim] strips them at both ends. *)
Definition isWhiteSpace (c : ascii) : bool :=
  let n := code c in
  (((9 <=? n) && (n <=? 13)) || (n =? 32) || (n =? 160))%N.

Fixpoint trimStart (s : list ascii) : list ascii :=
  match s with
  | c :: s' => if isWhiteSpace c then trimStart s' else s
  | [] => []
  end.

Definition trimEnd (s : list ascii) : list ascii :=
  rev (trimStart (rev s)).

Definition trim (s : list ascii) : list ascii := trimEnd (trimStart s).

Fixpoint startsWith (search s : list ascii) : bool :=
  match search, s with
  | [], _ => true
  | a :: search', b :: s' => Ascii.eqb a b && startsWith search' s'
  | _ :: _, [] => false
  end.

(** [String.prototype.replace] with a string as the search value: the
    FIRST occurrence only is replaced. The replacement is taken literally
    (it holds no [$] here). *)
Fixpoint replace (search replacement s : list ascii) : list ascii :=
  if startsWith search s then replacement ++ drop (length search) s
  else match s with
       | c :: s' => c :: replace search replacement s'
       | [] => []
       end.

(** *** The RegExp fragment

    Atoms are a literal character or [.]; an atom carries at most one of the
    quantifiers [*], [+], [?]. The source is anchored by a leading [^] and
    a trailing [$], which is how the middleware builds every pattern. *)
Inductive Atom : Type :=
| Lit (c : ascii)
| Dot.

Inductive Quantifier : Type :=
| Once
| ZeroOrMore
| OneOrMore
| Optional.

Definition Term : Type := (Atom * Quantifier)%type.

Record RegExp : Type := mkRegExp {
  terms : list Term;
  ignoreCase : bool;
}.

Inductive RegExpError : Type :=
| SyntaxError.

Definition quantifierOf (c : ascii) : option Quantifier :=
  if Ascii.eqb c "*" then Some ZeroOrMore
  else if Ascii.eqb c "+" then Some OneOrMore
  else if Ascii.eqb c "?" then Some Optional
  else None.

(** Syntax characters other than [.] and the quantifiers: escapes, groups,
    classes, braces, alternation and inner assertions. *)
Definition isOtherSyntax (c : ascii) : bool :=
  existsb (Ascii.eqb c)
    ["\"; "^"; "$"; "("; ")"; "["; "]"; "{"; "}"; "|"]%char.

Definition consTerm (t : Term)
    (r : option (Completion (list Term) RegExpError))
  : option (Completion (list Term) RegExpError) :=
  match r with
  | Some (Normal ts) => Some (Normal (t :: ts))
  | other => other
  end.

(** The body after the leading [^], up to the closing [$].
    [Some (Abrupt SyntaxError)]: the constructor throws (a quantifier with
    nothing to repeat). [None]: the source leaves the fragment (the model
    does not say what the engine does). [quantified] tells whether the
    previous atom carried a quantifier, in which case a [?] would make it
    lazy. *)
Fixpoint parseBody (quantified : bool) (s : list ascii)
  : option (Completion (list Term) RegExpError) :=
  match s with
  | [] => None
  | c :: s' =>
    if Ascii.eqb c "$" then
      match s' with [] => Some (Normal []) | _ :: _ => None end
    else if Ascii.eqb c "*" || Ascii.eqb c "+" then Some (Abrupt SyntaxError)
    else if Ascii.eqb c "?" then
      if quantified then None else Some (Abrupt SyntaxError)
    else if isOtherSyntax c then None
    else
      let a := if Ascii.eqb c "." then Dot else Lit c in
      match s' with
      | q :: s'' =>
        match quantifierOf q with
        | Some k => consTerm (a, k) (parseBody true s'')
        | None => consTerm (a, Once) (parseBody false s')
        end
      | [] => None
      end
  end.

(** [new RegExp(source, flags)] for [flags] either empty or ["i"]. *)
Definition newRegExp (source : list ascii) (flagI : bool)
  : option (Completion RegExp RegExpError) :=
  match source with
  | c :: body =>
    if Ascii.eqb c "^" then
      match parseBody false body with
      | Some (Normal ts) => Some (Normal (mkRegExp ts flagI))
      | Some (Abrupt e) => Some (Abrupt e)
      | None => None
      end
    else None
  | [] => None
  end.

(** Canonicalize of the specification (no [u] flag): the upper-case
    mapping when it is one code unit. Below 256 that is [a-z] and the
    Latin-1 letters E0-FE (F7, the division sign, apart); B5 and FF map
    outside Latin-1 to code units no other Latin-1 character maps to, so
    they stay distinct from every other one. *)
Definition canonicalize (c : ascii) : ascii :=
  let n := code c in
  if (((97 <=? n) && (n <=? 122))
      || ((224 <=? n) && (n <=? 254) && negb (n =? 247)))%N
  then ascii_of_N (n - 32) else c.

Definition sameChar (ic : bool) (a b : ascii) : bool :=
  if ic then Ascii.eqb (canonicalize a) (canonicalize b) else Ascii.eqb a b.

(** LineTerminator below 256: LF and CR. [.] matches everything else. *)
Definition isLineTerminator (c : ascii) : bool :=
  let n := code c in ((n =? 10) || (n =? 13))%N.

Definition atomMatches (ic : bool) (a : Atom) (c : ascii) : bool :=
  match a with
  | Lit l => sameChar ic l c
  | Dot => negb (isLineTerminator c)
  end.

(** Zero or more characters accepted by [ok], then the continuation [k]. *)
Fixpoint many (ok : ascii → bool) (k : list ascii → bool) (s : list ascii)
  : bool :=
  k s || match s with
         | c :: s' => ok c && many ok k s'
         | [] => false
         end.

Definition one (ok : ascii → bool) (k : list ascii → bool) (s : list ascii)
  : bool :=
  match s with
  | c :: s' => ok c && k s'
  | [] => false
  end.

(** Does the term list match the whole of [s]? The engine backtracks over
    every split, so the answer is whether some split exists. *)
Fixpoint matchTerms (ic : bool) (ts : list Term) : list ascii → bool :=
  match ts with
  | [] => λ s, match s with [] => true | _ :: _ => false end
  | (a, q) :: ts' =>
    let k := matchTerms ic ts' in
    let ok := atomMatches ic a in
    match q with
    | Once => one ok k
    | ZeroOrMore => many ok k
    | OneOrMore => one ok (many ok k)
    | Optional => λ s, one ok k s || k s
    end
  end.

(** [RegExp.prototype.test] (no [g] or [y] flag: no state). *)
Definition test (r : RegExp) (s : list ascii) : bool :=
  matchTerms (ignoreCase r) (terms r) s.

(** [Array.prototype.includes] on an array of strings: SameValueZero makes
    only an equal string an element. *)
Definition includes (xs : list string) (v : Value) : bool :=
  match v with
  | Str s => existsb (String.eqb s) xs
  | _ => false
  end.

End Js.

Abbreviation chars := String.list_ascii_of_string.

(** ** The framework side: requests, responses, the log sink *)
Module Express.

Import Js.

(** The two body-emission operations of a response. *)
Inductive Op : Type :=
| Send
| Json.

#[global] Instance Op_eq_dec : EqDecision Op.
Proof. solve_decision. Defined.

(** What a slot [res.send] or [res.json] holds: the framework's own
    implementation, or the arrow function a middleware assigned. That
    function closes over the cell [responseBody] and over the value the
    slot held before ([originalSend], [originalJson]). *)
Inductive Method : Type :=
| Original
| Capture (cell : nat) (saved : Method).

Record Request : Type := mkRequest {
  ip : Value;
  method : string;
  path : string;
  protocol : string;
  host : string;          (* what [req.get('host')] returns *)
  originalUrl : string;
  headers : Value;
  body : Value;
  query : Value;
}.

(** A callback registered with [res.on('finish', ...)], with what its
    closure captured. *)
Inductive Listener : Type :=
| InboundFinish (req : Request) (cell : nat) (requestStartTimestamp : Z)
| AuditFinish (req : Request) (cell : nat).

Record Response : Type := mkResponse {
  statusCode : Z;
  statusMessage : string;
  getHeaders : Value;
  send : Method;
  json : Method;
  finishListeners : list Listener;
}.

Inductive Level : Type :=
| error
| warn
| log.

(** One call of a [Logger] method: the level, the logger's context name
    and the message object. *)
Record LogEntry : Type := mkLogEntry {
  level : Level;
  context : string;
  payload : Value;
}.

(** Property read on a value: [Undefined] when there is none. *)
Fixpoint lookupField (k : string) (fields : list (string * Value)) : Value :=
  match fields with
  | (k', v) :: rest => if String.eqb k k' then v else lookupField k rest
  | [] => Undefined
  end.

Definition field (k : string) (v : Value) : Value :=
  match v with
  | Object fields => lookupField k fields
  | _ => Undefined
  end.

(** What the framework does behind the two emission operations is not this
    repository's: a state of its own, and for each operation a result (the
    returned value, or a thrown exception) and a new state. The framework's
    functions do not touch the cells or the slots themselves; when one of
    them goes through a slot again ([json] handing its text to
    [this.send]), that is one more emission in the sequence. *)
Class Framework : Type := {
  World : Type;
  Ret : Type;
  Err : Type;
  original : Op → Value → World → Completion Ret Err * World;
}.

Section Machine.
Context {F : Framework}.

(** Everything one request can touch. [cells] holds the [responseBody]
    variables of the closures, one per [use] call; [nextCalls] counts the
    invocations of the continuation. *)
Record State : Type := mkState {
  res : Response;
  cells : list Value;
  nextCalls : nat;
  sink : list LogEntry;
  world : World;
}.

Definition slot (op : Op) (r : Response) : Method :=
  match op with Send => send r | Json => json r end.

Definition setSlot (op : Op) (m : Method) (st : State) : State :=
  let r := res st in
  let r' :=
    match op with
    | Send => mkResponse (statusCode r) (statusMessage r) (getHeaders r)
                m (json r) (finishListeners r)
    | Json => mkResponse (statusCode r) (statusMessage r) (getHeaders r)
                (send r) m (finishListeners r)
    end in
  mkState r' (cells st) (nextCalls st) (sink st) (world st).

Definition onFinish (l : Listener) (st : State) : State :=
  let r := res st in
  mkState
    (mkResponse (statusCode r) (statusMessage r) (getHeaders r)
       (send r) (json r) (finishListeners r ++ [l]))
    (cells st) (nextCalls st) (sink st) (world st).

(** A closure variable that was declared reads as its content. *)
Definition readCell (c : nat) (st : State) : Value :=
  default Null (cells st !! c).

Definition writeCell (c : nat) (v : Value) (st : State) : State :=
  mkState (res st) (<[c := v]> (cells st)) (nextCalls st) (sink st)
    (world st).

(** [let responseBody = null]: a fresh cell, and the state that has it. *)
Definition declareCell (st : State) : nat * State :=
  (length (cells st),
   mkState (res st) (cells st ++ [Null]) (nextCalls st) (sink st)
     (world st)).

Definition next (st : State) : State :=
  mkState (res st) (cells st) (S (nextCalls st)) (sink st) (world st).

Definition emitLog (e : LogEntry) (st : State) : State :=
  mkState (res st) (cells st) (nextCalls st) (sink st ++ [e]) (world st).

Definition setWorld (w : World) (st : State) : State :=
  mkState (res st) (cells st) (nextCalls st) (sink st) w.

(** Running the function a slot holds. The capturing arrow function is
<<
      (body) => {
        if (!responseBody) { responseBody = body; }
        res.send = originalSend;
        return res.send(body);
      }
>>
    (the same with [json]); the call [res.send(body)] finds in the slot
    what was just put there. *)
Fixpoint run (op : Op) (m : Method) (b : Value) (st : State)
  : Completion Ret Err * State :=
  match m with
  | Original =>
    let '(r, w) := original op b (world st) in (r, setWorld w st)
  | Capture cell saved =>
    let st1 :=
      if negb (truthy (readCell cell st)) then writeCell cell b st
      else st in
    let st2 := setSlot op saved st1 in
    run op saved b st2
  end.

(** [res.send(b)] or [res.json(b)], whoever calls it. *)
Definition call (op : Op) (b : Value) (st : State)
  : Completion Ret Err * State :=
  run op (slot op (res st)) b st.

(** A sequence of emissions; the completions come back in order. *)
Fixpoint calls (cs : list (Op * Value)) (st : State)
  : list (Completion Ret Err) * State :=
  match cs with
  | [] => ([], st)
  | (op, b) :: cs' =>
    let '(r, st1) := call op b st in
    let '(rs, st2) := calls cs' st1 in
    (r :: rs, st2)
  end.

(** The same emissions on a response nobody patched. *)
Fixpoint plainCalls (cs : list (Op * Value)) (w : World)
  : list (Completion Ret Err) * World :=
  match cs with
  | [] => ([], w)
  | (op, b) :: cs' =>
    let '(r, w1) := original op b w in
    let '(rs, w2) := plainCalls cs' w1 in
    (r :: rs, w2)
  end.

End Machine.

Arguments State F : clear implicits.

(** What [app.use] received: the bound [use] of one of the two classes,
    with the fields of its instance. *)
Inductive Middleware : Type :=
| InboundInspector (name : string) (ignoredRoutes : list RegExp)
| AuditLogger.

(** The application: its configuration source and its middleware chain. *)
Record App : Type := mkApp {
  config : gmap string Value;
  middlewares : list Middleware;
}.

(** [app.use(m)] *)
Definition appUse (m : Middleware) (app : App) : App :=
  mkApp (config app) (middlewares app ++ [m]).

(** [configService.get(key, defaultValue)]: the default stands in for a
    value that is missing or undefined. *)
Definition configGet (key : string) (defaultValue : Value) (app : App)
  : Value :=
  match config app !! key with
  | Some Undefined | None => defaultValue
  | Some v => v
  end.

(** A response as the framework hands it over, and the state around it. *)
Definition freshResponse (status : Z) (message : string) (hs : Value)
  : Response :=
  mkResponse status message hs Original Original [].

Definition freshState {F : Framework} (r : Response) (w : World) : State F :=
  mkState r [] 0 [] w.

(** A framework that only records what reaches the client, and returns
    [Undefined]. *)
Definition recorder : Framework := {|
  World := list (Op * Value);
  Ret := Value;
  Err := Value;
  original := λ op b w, (Normal Undefined, w ++ [(op, b)]);
|}.

(** A framework whose emission fails once the headers are out: the second
    and later emissions throw. *)
Definition strict : Framework := {|
  World := list (Op * Value);
  Ret := Value;
  Err := Value;
  original := λ op b w,
    match w with
    | [] => (Normal Undefined, [(op, b)])
    | _ :: _ => (Abrupt (Str "ERR_HTTP_HEADERS_SENT"), w)
    end;
|}.

End Express.

(** ** [HttpInspectorInboundMiddleware] *)
Module Inbound.

Import Js Express.

Definition loggerContext : string := "InboundHTTPInspection".
Definition className : string := "HttpInspectorInboundMiddleware".
Definition configContext : string := "@gedai/common/config".
Definition modeKey : string := "TRAFFIC_INSPECTION_HTTP".

Definition getLogLevel (res : Response) : Level :=
  let statusCode := statusCode res in
  if statusCode >=? 500 then error
  else if statusCode >=? 400 then warn
  else log.

Definition shouldIgnoreRoute (ignoredRoutes : list RegExp) (req : Request)
  : bool :=
  existsb (λ x, test x (trim (chars (path req)))) ignoredRoutes.

Section Use.
Context {F : Framework}.

(** The [finish] callback; [now] is what [Date.now()] returns then. *)
Definition finishCallback (req : Request) (cell : nat)
    (requestStartTimestamp now : Z) (st : State F) : State F :=
  let r := res st in
  let executionTimeMillis := pretty (now - requestStartTimestamp) +:+ "ms" in
  let logLevel := getLogLevel r in
  emitLog
    (mkLogEntry logLevel loggerContext
       (Object
          [("message",
            Str ("[HTTP] [INBOUND] [" +:+ method req +:+ "] [" +:+ path req
                 +:+ "] [" +:+ pretty (statusCode r) +:+ "] ["
                 +:+ executionTimeMillis +:+ "]"));
           ("executionTime", Str executionTimeMillis);
           ("request",
            Object
              [("ip", ip req);
               ("method", Str (method req));
               ("path", Str (path req));
               ("baseURL", Str (protocol req +:+ "://" +:+ host req));
               ("url", Str (originalUrl req));
               ("headers", headers req);
               ("body", body req);
               ("query", query req)]);
           ("response",
            Object
              [("statusCode", Number (statusCode r));
               ("statusMessage", Str (statusMessage r));
               ("headers", getHeaders r);
               ("body", readCell cell st)])]))
    st.

(** [use(req, res, next)]; [now] is what [Date.now()] returns. *)
Definition use (ignoredRoutes : list RegExp) (now : Z) (req : Request)
    (st : State F) : State F :=
  if shouldIgnoreRoute ignoredRoutes req then next st
  else
    let '(responseBody, st) := declareCell st in
    let requestStartTimestamp := now in
    let originalSend := send (res st) in
    let st := setSlot Send (Capture responseBody originalSend) st in
    let originalJson := json (res st) in
    let st := setSlot Json (Capture responseBody originalJson) st in
    let st := onFinish (InboundFinish req responseBody requestStartTimestamp)
                st in
    next st.

End Use.

Record InspectionOptions : Type := mkInspectionOptions {
  ignoreRoutes : option (list string);
}.

(** [const { ignoreRoutes = [] } = opts || {}] *)
Definition ignoreRoutesOf (opts : option InspectionOptions) : list string :=
  match opts with
  | Some o => default [] (ignoreRoutes o)
  | None => []
  end.

(** [new RegExp(`^${x.replace('*', '.+')}$`, 'i')] *)
Definition routeRegExp (x : string)
  : option (Completion RegExp RegExpError) :=
  newRegExp ("^"%char :: replace ["*"%char] (chars ".+") (chars x)
             ++ ["$"%char]) true.

(** [ignoreRoutes.map(...)]: in order, and the first throw ends it. *)
Fixpoint compileRoutes (routes : list string)
  : option (Completion (list RegExp) RegExpError) :=
  match routes with
  | [] => Some (Normal [])
  | x :: rest =>
    match routeRegExp x with
    | Some (Normal r) =>
      match compileRoutes rest with
      | Some (Normal rs) => Some (Normal (r :: rs))
      | other => other
      end
    | Some (Abrupt e) => Some (Abrupt e)
    | None => None
    end
  end.

(** [configureHttpInspectorInbound(opts)(app)], with the entries the static
    [Logger.log] received so far threaded through. [None]: a route leaves
    the RegExp fragment. *)
Definition configureHttpInspectorInbound (opts : option InspectionOptions)
    (app : App) (logged : list LogEntry)
  : option (Completion App RegExpError * list LogEntry) :=
  let ignoreRoutes := ignoreRoutesOf opts in
  let httpInspection :=
    configGet modeKey (Str "inbound") app in
  if negb (includes ["all"; "inbound"]%string httpInspection)
  then Some (Normal app, logged)
  else
    let routes := Array (Str <$> ignoreRoutes) in
    let logged :=
      if truthy routes then
        logged ++
        [mkLogEntry log configContext
           (Object [("message", Str "HTTP Inspection is set to ignore routes");
                    ("routes", routes)])]
      else logged in
    match compileRoutes ignoreRoutes with
    | Some (Normal rs) =>
      let middleware := InboundInspector className rs in
      Some (Normal (appUse middleware app),
            logged ++
            [mkLogEntry log configContext
               (Str "Inbound http inspection initialized")])
    | Some (Abrupt e) => Some (Abrupt e, logged)
    | None => None
    end.

End Inbound.

(** ** [LogHttpMiddleware] *)
Module Audit.

Import Js Express.

Definition loggerContext : string := "LogHttpMiddleware".

Definition getLogLevel (res : Response) : Level :=
  let statusCode := statusCode res in
  if statusCode >=? 500 then error
  else if statusCode >=? 400 then warn
  else log.

Section Use.
Context {F : Framework}.

Definition finishCallback (req : Request) (cell : nat) (st : State F)
  : State F :=
  let r := res st in
  let logLevel := getLogLevel r in
  emitLog
    (mkLogEntry logLevel loggerContext
       (Object
          [("message", Str "REQUEST AUDIT");
           ("request",
            Object
              [("method", Str (method req));
               ("url", Str (originalUrl req));
               ("headers", headers req);
               ("body", body req);
               ("query", query req)]);
           ("response",
            Object
              [("statusCode", Number (statusCode r));
               ("statusMessage", Str (statusMessage r));
               ("headers", getHeaders r);
               ("body", readCell cell st)])]))
    st.

Definition use (req : Request) (st : State F) : State F :=
  let '(responseBody, st) := declareCell st in
  let originalSend := send (res st) in
  let st := setSlot Send (Capture responseBody originalSend) st in
  let originalJson := json (res st) in
  let st := setSlot Json (Capture responseBody originalJson) st in
  let st := onFinish (AuditFinish req responseBody) st in
  next st.

End Use.

Definition configureLogHttpMiddleware (app : App) : App :=
  appUse AuditLogger app.

End Audit.

(** ** One request through the chain *)
Module Lifecycle.

Import Js Express.

Section Lifecycle.
Context {F : Framework}.

(** The framework calls the [use] of a registered middleware. *)
Definition handle (m : Middleware) (now : Z) (req : Request) (st : State F)
  : State F :=
  match m with
  | InboundInspector _ ignoredRoutes => Inbound.use ignoredRoutes now req st
  | AuditLogger => Audit.use req st
  end.

Definition fire (now : Z) (st : State F) (l : Listener) : State F :=
  match l with
  | InboundFinish req cell start => Inbound.finishCallback req cell start now st
  | AuditFinish req cell => Audit.finishCallback req cell st
  end.

(** The completion notification: every registered callback runs, in the
    order of registration. *)
Definition finish (now : Z) (st : State F) : State F :=
  foldl (fire now) st (finishListeners (res st)).

(** Does the middleware skip the request? Only the inbound inspector has
    an ignore list. *)
Definition skips (m : Middleware) (req : Request) : bool :=
  match m with
  | InboundInspector _ ignoredRoutes =>
    Inbound.shouldIgnoreRoute ignoredRoutes req
  | AuditLogger => false
  end.

(** The callback a middleware registers, and the cell a callback reads. *)
Definition listenerOf (m : Middleware) (now : Z) (req : Request) (c : nat)
  : Listener :=
  match m with
  | InboundInspector _ _ => InboundFinish req c now
  | AuditLogger => AuditFinish req c
  end.

Definition cellOf (l : Listener) : nat :=
  match l with
  | InboundFinish _ c _ => c
  | AuditFinish _ c => c
  end.

(** The state a [use] that does not skip leaves behind: a cell declared,
    both slots capturing into it, the callback registered, the
    continuation called. *)
Definition intercepted (c : nat) (l : Listener) (st : State F) : State F :=
  next
    (onFinish l
       (setSlot Json (Capture c (json (res st)))
          (setSlot Send (Capture c (send (res st))) (declareCell st).2))).

(** Two states of which the first may hold more cells, and in each slot
    either the same function or one more capture into a cell [c] the
    second state does not have. *)
Definition Shadows (c : nat) (sti stp : State F) : Prop :=
  world sti = world stp
  ∧ (∃ extra, cells sti = cells stp ++ extra)
  ∧ (length (cells stp) ≤ c)%nat
  ∧ ∀ op, slot op (res sti) = slot op (res stp)
          ∨ slot op (res sti) = Capture c (slot op (res stp)).

Definition contextOf (m : Middleware) : string :=
  match m with
  | InboundInspector _ _ => Inbound.loggerContext
  | AuditLogger => Audit.loggerContext
  end.

End Lifecycle.

(** The body a log entry carries: [payload.response.body]. *)
Definition loggedBody (e : LogEntry) : Value :=
  field "body" (field "response" (payload e)).

(** A request for a given path. *)
Definition requestFor (p : string) : Request :=
  mkRequest (Str "::1") "GET" p "http" "localhost" p (Object []) Undefined
    (Object []).

(** The route matcher end to end: compile the patterns, test the path. *)
Definition shouldIgnore (patterns : list string) (p : string)
  : option (Completion bool RegExpError) :=
  match Inbound.compileRoutes patterns with
  | Some (Normal rs) =>
    Some (Normal (Inbound.shouldIgnoreRoute rs (requestFor p)))
  | Some (Abrupt e) => Some (Abrupt e)
  | None => None
  end.

End Lifecycle.

(** ** The contract in the words of the specification *)
Module Contract.

Import Js.

Definition isWildcard (c : ascii) : bool := Ascii.eqb c "*".

(** [Matches wild pattern path]: the whole path is the pattern, letter for
    letter up to case, each wildcard token standing for one or more
    characters that [wild] accepts. *)
Inductive Matches (wild : ascii → bool) : list ascii → list ascii → Prop :=
| M_end : Matches wild [] []
| M_char c d p s :
    isWildcard c = false →
    sameChar true c d = true →
    Matches wild p s →
    Matches wild (c :: p) (d :: s)
| M_wild w p s :
    w ≠ [] →
    forallb wild w = true →
    Matches wild p s →
    Matches wild ("*"%char :: p) (w ++ s).

(** "One or more characters": any character will do. *)
Definition anyChar : ascii → bool := λ _, true.

(** What the compiled [.+] accepts: any character but a line terminator. *)
Definition lineChar (c : ascii) : bool := negb (isLineTerminator c).

(** The path, trimmed, matches at least one pattern of the set. *)
Definition ShouldIgnore (wild : ascii → bool) (patterns : list string)
    (p : string) : Prop :=
  Exists (λ x, Matches wild (chars x) (trim (chars p))) patterns.

(** Characters the RegExp engine reads as syntax. *)
Definition isSyntax (c : ascii) : bool :=
  isOtherSyntax c || Ascii.eqb c "." || Ascii.eqb c "+" || Ascii.eqb c "?".

Definition literal (p : list ascii) : bool :=
  forallb (λ c, negb (isSyntax c || isWildcard c)) p.

(** A pattern with at most one wildcard token and no other RegExp syntax. *)
Fixpoint plain (p : list ascii) : bool :=
  match p with
  | [] => true
  | c :: p' =>
    if isWildcard c then literal p' else negb (isSyntax c) && plain p'
  end.

Definition plainRoute (x : string) : bool := plain (chars x).

(** The terms a pattern stands for when every wildcard token is read as
    [.+] and everything else as itself. *)
Definition termsOf (p : list ascii) : list Term :=
  map (λ c, if isWildcard c then (Dot, OneOrMore) else (Lit c, Once)) p.

(** The severity tiers. *)
Definition severity (c : Z) : Express.Level :=
  if decide (500 <= c) then Express.error
  else if decide (400 <= c < 500) then Express.warn
  else Express.log.

End Contract.

(** ** Concrete requests, responses and applications *)
Module Fixtures.

Import Js Express.

Definition okResponse : Response := freshResponse 200 "OK" (Object []).

Definition withStatus (status : Z) : Response :=
  freshResponse status "" (Object []).

Definition appWithMode (mode : string) : App :=
  mkApp {["TRAFFIC_INSPECTION_HTTP" := Str mode]} [].

Definition appUnset : App := mkApp ∅ [].

Definition routes (rs : list string) : option Inbound.InspectionOptions :=
  Some (Inbound.mkInspectionOptions (Some rs)).

Definition noMatcher : Middleware := InboundInspector Inbound.className [].

End Fixtures.

(** ** The middleware chain, and what a cell ends up holding *)
Module Serving.

Import Js Express Lifecycle.

(** The cells the functions nested in a slot write to, outermost first. *)
Fixpoint captures (m : Method) : list nat :=
  match m with
  | Original => []
  | Capture c saved => c :: captures saved
  end.

Section Serving.
Context {F : Framework}.

(** The framework runs the registered middlewares in order; each [use]
    ends by calling the continuation, which is the next one. A middleware
    comes with what [Date.now()] returns when its [use] runs. *)
Definition serve (chain : list (Middleware * Z)) (req : Request)
    (st : State F) : State F :=
  foldl (λ st mt, handle mt.1 mt.2 req st) st chain.

End Serving.

(** The other emission operation. *)
Definition other (op : Op) : Op :=
  match op with
  | Send => Json
  | Json => Send
  end.

(** The logger a completion callback writes to. *)
Definition loggerOf (l : Listener) : string :=
  match l with
  | InboundFinish _ _ _ => Inbound.loggerContext
  | AuditFinish _ _ => Audit.loggerContext
  end.

(** The middlewares of a chain that do not skip the request. *)
Definition active (chain : list (Middleware * Z)) (req : Request)
  : list (Middleware * Z) :=
  filter (λ mt, skips mt.1 req = false) chain.

(** What the cell of one [use] holds after a sequence of emissions: the
    first body; or, when that one is falsy, the body of the first emission
    through the other operation, if there is one. *)
Definition expectedCapture (cs : list (Op * Value)) : Value :=
  match cs with
  | [] => Null
  | (op1, b1) :: rest =>
    if truthy b1 then b1
    else match list_find (λ ob, ob.1 ≠ op1) rest with
         | Some (_, (_, b)) => b
         | None => b1
         end
  end.

Definition withPath (p : string) (req : Request) : Request :=
  mkRequest (ip req) (method req) p (protocol req) (host req)
    (originalUrl req) (headers req) (body req) (query req).

(** Severities in increasing order. *)
Definition rank (l : Level) : nat :=
  match l with
  | log => 0
  | warn => 1
  | error => 2
  end.

(** Two strings that differ in letter case only. *)
Definition sameUpToCase (s s' : list ascii) : Prop :=
  Forall2 (λ c d, sameChar true c d = true) s s'.

(** The two entries [configureHttpInspectorInbound] hands to the static
    [Logger.log]. *)
Definition ignoreRoutesEntry (routes : list string) : LogEntry :=
  mkLogEntry log Inbound.configContext
    (Object [("message", Str "HTTP Inspection is set to ignore routes");
             ("routes", Array (Str <$> routes))]).

Definition initializedEntry : LogEntry :=
  mkLogEntry log Inbound.configContext
    (Str "Inbound http inspection initialized").

(** The chain of an application, each middleware with the same clock
    reading. *)
Definition chainOf (app : App) (now : Z) : list (Middleware * Z) :=
  (λ m, (m, now)) <$> middlewares app.

End Serving.

(** * Properties *)

(** ** The route matcher *)
Module RouteFacts.
Import Js Express Contract.

Lemma one_true ok k s :
  one ok k s = true ↔ ∃ c r, s = c :: r ∧ ok c = true ∧ k r = true.
Proof.
  destruct s as [|c r]; simpl.
  - split; [discriminate | intros (? & ? & ? & _); discriminate].
  - rewrite andb_true_iff. split.
    + intros [? ?]. eauto.
    + intros (? & ? & [= -> ->] & ? & ?). auto.
Qed.

Lemma many_true ok k s :
  many ok k s = true ↔
  ∃ w r, s = w ++ r ∧ forallb ok w = true ∧ k r = true.
Proof.
  induction s as [|c s IH]; simpl; rewrite orb_true_iff.
  - split.
    + intros [Hk | ?]; [|discriminate]. exists [], []. auto.
    + intros (w & r & Heq & _ & Hk). symmetry in Heq.
      apply app_eq_nil in Heq as [-> ->]. auto.
  - rewrite andb_true_iff, IH. split.
    + intros [Hk | [Hc (w & r & -> & Hw & Hk)]].
      * exists [], (c :: s). auto.
      * exists (c :: w), r. simpl. rewrite Hc, Hw. auto.
    + intros (w & r & Heq & Hw & Hk). destruct w as [|d w]; simpl in *.
      * subst r. auto.
      * injection Heq as -> ->. apply andb_true_iff in Hw as [Hd Hw].
        right. split; [done|]. eauto.
Qed.

Lemma matchTerms_nil ic s : matchTerms ic [] s = true ↔ s = [].
Proof. destruct s; simpl; split; congruence. Qed.

Lemma matchTerms_termsOf p : ∀ s,
  matchTerms true (termsOf p) s = true ↔ Matches lineChar p s.
Proof.
  induction p as [|c p IH]; intros s.
  - rewrite matchTerms_nil. split.
    + intros ->. constructor.
    + inversion 1; done.
  - unfold termsOf. simpl. fold (termsOf p).
    destruct (isWildcard c) eqn:Hc.
    + apply Ascii.eqb_eq in Hc as ->. rewrite one_true. split.
      * intros (d & r & -> & Hd & Hm). apply many_true in Hm
          as (w & r' & -> & Hw & Hk). apply IH in Hk.
        apply (M_wild _ (d :: w)); [done | | done].
        simpl. apply andb_true_iff. split; [exact Hd | exact Hw].
      * inversion 1 as [| ? ? ? ? Hne | w ? r Hw Hall Hm]; subst.
        { discriminate Hne. }
        destruct w as [|d w]; [done|]. simpl in Hall.
        apply andb_true_iff in Hall as [Hd Hall].
        exists d, (w ++ r). split_and!; [done | exact Hd |].
        apply many_true. exists w, r. split_and!; [done | exact Hall |].
        by apply IH.
    + rewrite one_true. split.
      * intros (d & r & -> & Hd & Hm). apply M_char; [done | done |].
        by apply IH.
      * inversion 1 as [| ? d ? r ? Hd Hm | ]; subst.
        { exists d, r. split_and!; [done | done | by apply IH]. }
        { discriminate Hc. }
Qed.


(** What the parser sees in a character that is no syntax. *)
Lemma literal_char c :
  isSyntax c = false → isWildcard c = false →
  Ascii.eqb c "$" = false ∧ Ascii.eqb c "*" = false ∧
  Ascii.eqb c "+" = false ∧ Ascii.eqb c "?" = false ∧
  Ascii.eqb c "." = false ∧ isOtherSyntax c = false.
Proof.
  intros Hs Hw.
  destruct c as [[] [] [] [] [] [] [] []];
    vm_compute in Hs, Hw; first [discriminate | by vm_compute].
Qed.

Lemma literal_not_quantifier c :
  isSyntax c = false → isWildcard c = false → quantifierOf c = None.
Proof.
  intros Hs Hw. destruct (literal_char c Hs Hw) as (_ & H1 & H2 & H3 & _).
  unfold quantifierOf. by rewrite H1, H2, H3.
Qed.

Lemma parseBody_literal_step q c d s :
  isSyntax c = false → isWildcard c = false → quantifierOf d = None →
  parseBody q (c :: d :: s) = consTerm (Lit c, Once) (parseBody false (d :: s)).
Proof.
  intros Hs Hw Hd.
  destruct (literal_char c Hs Hw) as (H0 & H1 & H2 & H3 & H4 & H5).
  cbn [parseBody]. rewrite H0, H1, H2, H3, H4, H5, Hd. done.
Qed.

Lemma literal_cons c p :
  literal (c :: p) = true ↔
  isSyntax c = false ∧ isWildcard c = false ∧ literal p = true.
Proof.
  unfold literal. simpl. rewrite andb_true_iff, negb_true_iff, orb_false_iff.
  tauto.
Qed.

Lemma termsOf_literal_cons c p :
  isWildcard c = false → termsOf (c :: p) = (Lit c, Once) :: termsOf p.
Proof. intros H. unfold termsOf. simpl. by rewrite H. Qed.

(** A pattern without syntax characters parses to itself. *)
Lemma parseBody_literal p : ∀ q,
  literal p = true →
  parseBody q (p ++ ["$"%char]) = Some (Normal (termsOf p)).
Proof.
  induction p as [|c p IH]; intros q Hp; [done|].
  apply literal_cons in Hp as (Hs & Hw & Hp).
  rewrite termsOf_literal_cons by done.
  destruct p as [|d p]; simpl app.
  - rewrite parseBody_literal_step by done. done.
  - apply literal_cons in Hp as Hd. destruct Hd as (Hds & Hdw & _).
    rewrite parseBody_literal_step
      by auto using literal_not_quantifier.
    change (d :: p ++ ["$"%char]) with ((d :: p) ++ ["$"%char]).
    by rewrite IH.
Qed.

Lemma replace_wildcard_here p :
  replace ["*"%char] (chars ".+") ("*"%char :: p) = "."%char :: "+"%char :: p.
Proof. done. Qed.

Lemma replace_wildcard_skip c p :
  isWildcard c = false →
  replace ["*"%char] (chars ".+") (c :: p)
  = c :: replace ["*"%char] (chars ".+") p.
Proof.
  unfold isWildcard. intros H. cbn [replace startsWith].
  rewrite Ascii.eqb_sym, H. done.
Qed.

(** A plain pattern, its first wildcard replaced, parses to [termsOf]. *)
Lemma parseBody_plain p : ∀ q,
  plain p = true →
  parseBody q (replace ["*"%char] (chars ".+") p ++ ["$"%char])
  = Some (Normal (termsOf p)).
Proof.
  induction p as [|c p IH]; intros q Hp; [done|].
  cbn [plain] in Hp. destruct (isWildcard c) eqn:Hw.
  - apply Ascii.eqb_eq in Hw as ->. rewrite replace_wildcard_here.
    change (parseBody q (("."%char :: "+"%char :: p) ++ ["$"%char]))
      with (consTerm (Dot, OneOrMore) (parseBody true (p ++ ["$"%char]))).
    by rewrite parseBody_literal.
  - apply andb_true_iff in Hp as [Hs Hp]. apply negb_true_iff in Hs.
    rewrite replace_wildcard_skip, termsOf_literal_cons by done.
    specialize (IH false Hp).
    destruct p as [|d p].
    + cbn [replace startsWith app].
      rewrite parseBody_literal_step by done. done.
    + cbn [plain] in Hp. destruct (isWildcard d) eqn:Hd.
      * apply Ascii.eqb_eq in Hd as ->. rewrite replace_wildcard_here in *.
        simpl app in *. rewrite parseBody_literal_step by done.
        by rewrite IH.
      * apply andb_true_iff in Hp as [Hds Hp]. apply negb_true_iff in Hds.
        rewrite replace_wildcard_skip in * by done. simpl app in *.
        rewrite parseBody_literal_step by auto using literal_not_quantifier.
        by rewrite IH.
Qed.

Lemma routeRegExp_plain x :
  plainRoute x = true →
  Inbound.routeRegExp x = Some (Normal (mkRegExp (termsOf (chars x)) true)).
Proof.
  intros Hp. unfold Inbound.routeRegExp, newRegExp.
  change (Ascii.eqb "^" "^") with true. cbn match.
  by rewrite (parseBody_plain (chars x) false Hp).
Qed.

Lemma compileRoutes_plain routes :
  Forall (λ x, plainRoute x = true) routes →
  Inbound.compileRoutes routes
  = Some (Normal (map (λ x, mkRegExp (termsOf (chars x)) true) routes)).
Proof.
  induction 1 as [|x routes Hx _ IH]; [done|].
  cbn [Inbound.compileRoutes map]. by rewrite routeRegExp_plain, IH.
Qed.

Lemma shouldIgnoreRoute_termsOf routes req :
  Inbound.shouldIgnoreRoute
    (map (λ x, mkRegExp (termsOf (chars x)) true) routes) req = true
  ↔ ShouldIgnore lineChar routes (path req).
Proof.
  unfold Inbound.shouldIgnoreRoute, ShouldIgnore.
  rewrite existsb_exists, Exists_exists. split.
  - intros (r & Hin & Ht). apply in_map_iff in Hin as (x & <- & Hin).
    exists x. split; [by apply list_elem_of_In|]. by apply matchTerms_termsOf.
  - intros (x & Hin & Hm). eexists. split.
    + apply in_map_iff. exists x. split; [done|]. by apply list_elem_of_In.
    + by apply matchTerms_termsOf.
Qed.

(** C2, amended: for routes with at most one wildcard token and no other
    RegExp syntax, the compiled matcher ignores a path exactly when the
    trimmed path matches one of the routes in full, up to case, the
    wildcard standing for one or more characters none of which is a line
    terminator; with no routes nothing is ignored. *)
Theorem shouldIgnoreRoute_plain_routes (routes : list string) (req : Request) :
  Forall (λ x, plainRoute x = true) routes →
  ∃ rs,
    Inbound.compileRoutes routes = Some (Normal rs) ∧
    (Inbound.shouldIgnoreRoute rs req = true
     ↔ ShouldIgnore lineChar routes (path req)) ∧
    Inbound.shouldIgnoreRoute [] req = false.
Proof.
  intros Hplain. eexists. split_and!.
  - by apply compileRoutes_plain.
  - apply shouldIgnoreRoute_termsOf.
  - done.
Qed.

Lemma shouldIgnoreRoute_plain_routes_witness :
  ∃ rs,
    Inbound.compileRoutes ["/health"; "/v1/accounts/*"]%string
    = Some (Normal rs) ∧
    (Inbound.shouldIgnoreRoute rs (Lifecycle.requestFor " /V1/Accounts/7 ")
     = true
     ↔ ShouldIgnore lineChar ["/health"; "/v1/accounts/*"]%string
         " /V1/Accounts/7 ") ∧
    Inbound.shouldIgnoreRoute [] (Lifecycle.requestFor " /V1/Accounts/7 ")
    = false.
Proof.
  apply (shouldIgnoreRoute_plain_routes
           ["/health"; "/v1/accounts/*"]%string
           (Lifecycle.requestFor " /V1/Accounts/7 ")).
  repeat constructor.
Defined.

Lemma Matches_char_inv wild c p s :
  isWildcard c = false →
  Matches wild (c :: p) s →
  ∃ d r, s = d :: r ∧ sameChar true c d = true ∧ Matches wild p r.
Proof.
  intros Hc H. remember (c :: p) as cp eqn:E.
  destruct H as [| c' d p' r _ Hd Hm | w p' r _ _ _].
  - discriminate E.
  - injection E as <- <-. eauto.
  - injection E as <- <-. discriminate Hc.
Qed.

Ltac match_literally :=
  repeat (apply M_char; [reflexivity | reflexivity | ]).

(** C2 as stated fails in three ways: a second wildcard token is not
    expanded, a syntax character in a route is read as syntax, and the
    wildcard does not run over a line terminator. *)
Lemma shouldIgnore_not_each_wildcard :
  (Lifecycle.shouldIgnore ["/v1/*/items/*"]%string "/v1/a/items/b"
   = Some (Normal false)
   ∧ ShouldIgnore anyChar ["/v1/*/items/*"]%string "/v1/a/items/b")
  ∧ (Lifecycle.shouldIgnore ["/a.b"]%string "/aXb" = Some (Normal true)
     ∧ ¬ ShouldIgnore anyChar ["/a.b"]%string "/aXb")
  ∧ (Lifecycle.shouldIgnore ["/a/*"]%string
       (String "/" (String "a" (String "/" (String "x"
          (String "010" "y"))))) = Some (Normal false)
     ∧ ShouldIgnore anyChar ["/a/*"]%string
         (String "/" (String "a" (String "/" (String "x"
            (String "010" "y")))))).
Proof.
  split_and!.
  - reflexivity.
  - apply Exists_cons_hd. unfold trim, trimEnd. simpl.
    match_literally. apply (M_wild _ ["a"%char]); [done | done |].
    match_literally. apply (M_wild _ ["b"%char] [] []); [done | done |].
    constructor.
  - reflexivity.
  - intros H. apply Exists_cons in H as [H | H]; [|by apply Exists_nil in H].
    unfold trim, trimEnd in H. simpl in H.
    apply Matches_char_inv in H as (? & ? & [= <- <-] & _ & H); [|done].
    apply Matches_char_inv in H as (? & ? & [= <- <-] & _ & H); [|done].
    apply Matches_char_inv in H as (? & ? & [= <- <-] & Hc & _); [|done].
    discriminate Hc.
  - reflexivity.
  - apply Exists_cons_hd. unfold trim, trimEnd. simpl.
    match_literally.
    apply (M_wild _ ["x"; "010"; "y"]%char [] []); [done | done |].
    constructor.
Qed.

(** C6: the two end-to-end scenarios of the route matcher. *)
Theorem shouldIgnore_account_routes :
  Lifecycle.shouldIgnore ["/v1/accounts/*/holder"]%string
    "/v1/accounts/42/holder" = Some (Normal true)
  ∧ Lifecycle.shouldIgnore ["/v1/accounts/*"]%string "/v1/accounts"
    = Some (Normal false)
  ∧ Lifecycle.shouldIgnore ["/v1/accounts/*"]%string "/v1/accounts/"
    = Some (Normal false)
  ∧ Lifecycle.shouldIgnore ["/v1/accounts/*"]%string "/v1/accounts/4"
    = Some (Normal true).
Proof. split_and!; reflexivity. Qed.

End RouteFacts.

(** ** Capture and pass-through *)
Module CaptureFacts.
Import Js Express Lifecycle.

Section Frames.
Context {F : Framework}.
Implicit Types (st : State F) (m : Method) (b : Value) (op : Op).

(** An emission touches the slots, the cells and the framework's world,
    nothing else. *)
Lemma run_frame op m b : ∀ st,
  sink (run op m b st).2 = sink st
  ∧ nextCalls (run op m b st).2 = nextCalls st
  ∧ finishListeners (res (run op m b st).2) = finishListeners (res st)
  ∧ statusCode (res (run op m b st).2) = statusCode (res st)
  ∧ length (cells (run op m b st).2) = length (cells st).
Proof.
  induction m as [|c saved IH]; intros st; cbn [run].
  - destruct (original op b (world st)). done.
  - destruct (IH (setSlot op saved
        (if negb (truthy (readCell c st)) then writeCell c b st else st)))
      as (-> & -> & -> & -> & ->).
    destruct (negb (truthy (readCell c st))), op; cbn;
      rewrite ?length_insert; done.
Qed.

Lemma calls_frame cs : ∀ st,
  sink (calls cs st).2 = sink st
  ∧ nextCalls (calls cs st).2 = nextCalls st
  ∧ finishListeners (res (calls cs st).2) = finishListeners (res st)
  ∧ statusCode (res (calls cs st).2) = statusCode (res st)
  ∧ length (cells (calls cs st).2) = length (cells st).
Proof.
  induction cs as [|[op b] cs IH]; intros st; cbn [calls]; [done|].
  unfold call. destruct (run op (slot op (res st)) b st) as [r st1] eqn:E.
  specialize (IH st1). destruct (calls cs st1) as [rs st2]. cbn in *.
  pose proof (run_frame op (slot op (res st)) b st) as Hf.
  rewrite E in Hf. cbn in Hf.
  destruct IH as (-> & -> & -> & -> & ->). done.
Qed.

Lemma readCell_setSlot c op m st : readCell c (setSlot op m st) = readCell c st.
Proof. by destruct op. Qed.

Lemma readCell_writeCell_same c b st :
  (c < length (cells st))%nat → readCell c (writeCell c b st) = b.
Proof.
  intros Hc. unfold readCell, writeCell. cbn.
  by rewrite list_lookup_insert_eq.
Qed.

Lemma readCell_writeCell_other c c' b st :
  c ≠ c' → readCell c (writeCell c' b st) = readCell c st.
Proof.
  intros Hc. unfold readCell, writeCell. cbn.
  by rewrite list_lookup_insert_ne.
Qed.

(** A cell that holds a truthy value, or already the body being emitted,
    holds the same after the emission. *)
Lemma run_keeps_cell op c x b m : ∀ st,
  (c < length (cells st))%nat →
  readCell c st = x →
  truthy x = true ∨ x = b →
  readCell c (run op m b st).2 = x.
Proof.
  induction m as [|c' saved IH]; intros st Hc Hx Hor; cbn [run].
  - destruct (original op b (world st)). done.
  - apply IH.
    + destruct (negb (truthy (readCell c' st))), op; cbn;
        rewrite ?length_insert; done.
    + rewrite readCell_setSlot.
      destruct (negb (truthy (readCell c' st))) eqn:Hg; [|done].
      destruct (decide (c = c')) as [<-|Hne].
      * rewrite readCell_writeCell_same by done.
        rewrite Hx in Hg. apply negb_true_iff in Hg.
        destruct Hor as [Ht | ->]; [congruence | done].
      * by rewrite readCell_writeCell_other.
    + done.
Qed.

Lemma calls_keep_cell c x cs : ∀ st,
  (c < length (cells st))%nat →
  readCell c st = x →
  truthy x = true →
  readCell c (calls cs st).2 = x.
Proof.
  induction cs as [|[op b] cs IH]; intros st Hc Hx Ht; cbn [calls]; [done|].
  unfold call. destruct (run op (slot op (res st)) b st) as [r st1] eqn:E.
  specialize (IH st1). destruct (calls cs st1) as [rs st2]. cbn in *.
  pose proof (run_frame op (slot op (res st)) b st) as Hf.
  pose proof (run_keeps_cell op c x b (slot op (res st)) st Hc Hx
                (or_introl Ht)) as Hk.
  rewrite E in Hf, Hk. cbn in Hf, Hk.
  apply IH; [|done|done]. destruct Hf as (_ & _ & _ & _ & ->). done.
Qed.


(** What [use] leaves behind when it does not skip. *)
Lemma handle_intercepted (mw : Middleware) now req st :
  skips mw req = false →
  handle mw now req st
  = intercepted (length (cells st))
      (listenerOf mw now req (length (cells st))) st.
Proof.
  destruct mw as [name rs|]; cbn [skips handle]; [|done].
  intros Hs. unfold Inbound.use. by rewrite Hs.
Qed.

Lemma intercepted_cell c l st :
  c = length (cells st) →
  (c < length (cells (intercepted c l st)))%nat
  ∧ readCell c (intercepted c l st) = Null.
Proof.
  intros ->. unfold readCell. cbn. rewrite length_app. cbn. split; [lia|].
  by rewrite lookup_app_r, Nat.sub_diag.
Qed.

Lemma intercepted_slot c l st op :
  slot op (res (intercepted c l st)) = Capture c (slot op (res st)).
Proof. by destruct op. Qed.

Lemma intercepted_listeners c l st :
  finishListeners (res (intercepted c l st))
  = finishListeners (res st) ++ [l].
Proof. done. Qed.

(** The first emission through a capturing slot: the body is written into
    the cell if the cell is falsy, the slot gets its former function back,
    and only then does that function run. *)
Lemma call_capture op c saved b st :
  slot op (res st) = Capture c saved →
  call op b st
  = run op saved b
      (setSlot op saved
         (if negb (truthy (readCell c st)) then writeCell c b st else st)).
Proof. unfold call. by intros ->. Qed.

Lemma call_records op c saved b st :
  slot op (res st) = Capture c saved →
  (c < length (cells st))%nat →
  readCell c (call op b st).2
  = if truthy (readCell c st) then readCell c st else b.
Proof.
  intros Hs Hc. rewrite (call_capture op c saved) by done.
  apply run_keeps_cell.
  - destruct (negb (truthy (readCell c st))), op; cbn;
      rewrite ?length_insert; done.
  - rewrite readCell_setSlot. destruct (truthy (readCell c st)); cbn; [done|].
    by apply readCell_writeCell_same.
  - destruct (truthy (readCell c st)) eqn:Ht; auto.
Qed.

(** The completion notification only adds log entries. *)
Lemma fire_frame t st l :
  cells (fire t st l) = cells st ∧ res (fire t st l) = res st
  ∧ ∃ e, sink (fire t st l) = sink st ++ [e]
         ∧ loggedBody e = readCell (cellOf l) st
         ∧ level e = match l with
                     | InboundFinish _ _ _ => Inbound.getLogLevel (res st)
                     | AuditFinish _ _ => Audit.getLogLevel (res st)
                     end.
Proof. destruct l; cbn; split_and!; try done; eexists; split_and!; done. Qed.

Lemma foldl_fire_frame t ls : ∀ st,
  cells (foldl (fire t) st ls) = cells st
  ∧ res (foldl (fire t) st ls) = res st.
Proof.
  induction ls as [|l ls IH]; intros st; cbn [foldl]; [done|].
  destruct (IH (fire t st l)) as [-> ->].
  destruct (fire_frame t st l) as (-> & -> & _). done.
Qed.

Lemma foldl_fire_nil_sink t st :
  finishListeners (res st) = [] → sink (finish t st) = sink st.
Proof. unfold finish. by intros ->. Qed.

(** The last entry the notification adds is the one of the callback
    registered last; it carries the content of that callback's cell. *)
Lemma finish_last t st ls l :
  finishListeners (res st) = ls ++ [l] →
  ∃ e, sink (finish t st) = sink (foldl (fire t) st ls) ++ [e]
       ∧ loggedBody e = readCell (cellOf l) st.
Proof.
  intros Hl. unfold finish. rewrite Hl, foldl_app. cbn [foldl].
  destruct (fire_frame t (foldl (fire t) st ls) l) as (_ & _ & e & -> & Hb & _).
  exists e. split; [done|]. rewrite Hb. unfold readCell.
  by destruct (foldl_fire_frame t ls st) as [-> _].
Qed.


Lemma slot_setSlot_same op m st : slot op (res (setSlot op m st)) = m.
Proof. by destruct op. Qed.

Lemma slot_setSlot_other op op' m st :
  op' ≠ op → slot op' (res (setSlot op m st)) = slot op' (res st).
Proof. by destruct op, op'. Qed.

(** After an emission its slot holds the framework's function again. *)
Lemma run_slot_same op m b : ∀ st,
  slot op (res (run op m b st).2)
  = match m with Original => slot op (res st) | Capture _ _ => Original end.
Proof.
  induction m as [|c saved IH]; intros st; cbn [run].
  - destruct (original op b (world st)). by destruct op.
  - rewrite IH. destruct saved; [|done]. apply slot_setSlot_same.
Qed.

Lemma run_slot_other op op' m b : ∀ st,
  op' ≠ op → slot op' (res (run op m b st).2) = slot op' (res st).
Proof.
  induction m as [|c saved IH]; intros st Hne; cbn [run].
  - destruct (original op b (world st)). by destruct op'.
  - rewrite IH, slot_setSlot_other by done.
    by destruct (negb (truthy (readCell c st))).
Qed.

(** Cells beyond those of the second state do not show in what an
    emission returns, nor in what it does to the world. *)
Lemma run_shadow op m b : ∀ sti stp,
  world sti = world stp →
  (∃ extra, cells sti = cells stp ++ extra) →
  (run op m b sti).1 = (run op m b stp).1
  ∧ world (run op m b sti).2 = world (run op m b stp).2
  ∧ ∃ extra, cells (run op m b sti).2 = cells (run op m b stp).2 ++ extra.
Proof.
  induction m as [|i saved IH]; intros sti stp Hw [extra Hc]; cbn [run].
  - rewrite Hw. destruct (original op b (world stp)). cbn. eauto.
  - apply IH.
    + destruct (negb (truthy (readCell i sti))),
        (negb (truthy (readCell i stp))), op; done.
    + destruct (decide (i < length (cells stp))%nat) as [Hi|Hi].
      * assert (readCell i sti = readCell i stp) as ->.
        { unfold readCell. by rewrite Hc, lookup_app_l. }
        exists extra.
        destruct (negb (truthy (readCell i stp))), op; cbn;
          rewrite Hc, ?insert_app_l; done.
      * assert (cells (setSlot op saved
                  (if negb (truthy (readCell i stp))
                   then writeCell i b stp else stp)) = cells stp) as ->.
        { destruct (negb (truthy (readCell i stp))), op; cbn;
            rewrite ?list_insert_ge; done || lia. }
        destruct (negb (truthy (readCell i sti))).
        -- exists (<[(i - length (cells stp))%nat := b]> extra).
           destruct op; cbn; rewrite Hc, insert_app_r_alt; done || lia.
        -- exists extra. by destruct op.
Qed.

Lemma call_shadow c op b sti stp :
  Shadows c sti stp →
  (call op b sti).1 = (call op b stp).1
  ∧ Shadows c (call op b sti).2 (call op b stp).2.
Proof.
  intros (Hw & [extra Hc] & Hlen & Hslots).
  destruct (Hslots op) as [Hs | Hs].
  - unfold call. rewrite Hs.
    destruct (run_shadow op (slot op (res stp)) b sti stp Hw
                (ex_intro _ extra Hc)) as (Hr & Hw' & Hc').
    split; [done|]. split_and!; [done | done | |].
    + by destruct (run_frame op (slot op (res stp)) b stp)
        as (_ & _ & _ & _ & ->).
    + intros op'. destruct (decide (op' = op)) as [->|Hne].
      * left. rewrite !run_slot_same.
        destruct (slot op (res stp)) eqn:E; [congruence | done].
      * rewrite !run_slot_other by done. apply Hslots.
  - rewrite (call_capture op c (slot op (res stp))) by done. unfold call.
    set (sti2 := setSlot op (slot op (res stp))
                   (if negb (truthy (readCell c sti))
                    then writeCell c b sti else sti)).
    assert (world sti2 = world stp) as Hw2.
    { unfold sti2. by destruct (negb (truthy (readCell c sti))), op. }
    assert (∃ extra', cells sti2 = cells stp ++ extra') as Hc2.
    { unfold sti2. destruct (negb (truthy (readCell c sti))).
      - exists (<[(c - length (cells stp))%nat := b]> extra).
        destruct op; cbn; rewrite Hc, insert_app_r_alt; done || lia.
      - exists extra. by destruct op. }
    destruct (run_shadow op (slot op (res stp)) b sti2 stp Hw2 Hc2)
      as (Hr & Hw' & Hc').
    split; [done|]. split_and!; [done | done | |].
    + by destruct (run_frame op (slot op (res stp)) b stp)
        as (_ & _ & _ & _ & ->).
    + intros op'. destruct (decide (op' = op)) as [->|Hne].
      * left. rewrite !run_slot_same.
        destruct (slot op (res stp)) eqn:E; [|done].
        unfold sti2. apply slot_setSlot_same.
      * rewrite !run_slot_other by done. unfold sti2.
        rewrite slot_setSlot_other by done.
        destruct (negb (truthy (readCell c sti))); apply Hslots.
Qed.

Lemma calls_shadow c cs : ∀ sti stp,
  Shadows c sti stp →
  (calls cs sti).1 = (calls cs stp).1
  ∧ Shadows c (calls cs sti).2 (calls cs stp).2.
Proof.
  induction cs as [|[op b] cs IH]; intros sti stp HS; cbn [calls]; [done|].
  destruct (call_shadow c op b sti stp HS) as [Hr HS1].
  destruct (call op b sti) as [r1 sti1], (call op b stp) as [r2 stp1].
  cbn in Hr, HS1. subst r2.
  destruct (IH sti1 stp1 HS1) as [Hrs HS2].
  destruct (calls cs sti1) as [rs1 sti2], (calls cs stp1) as [rs2 stp2].
  cbn in *. by subst rs2.
Qed.

(** Whether [use] skips or not, the state it leaves shadows the one it
    found. *)
Lemma handle_shadows mw now req st :
  Shadows (length (cells st)) (handle mw now req st) st.
Proof.
  destruct (skips mw req) eqn:Hs.
  - destruct mw as [name rs|]; [|done]. cbn in Hs |- *.
    unfold Inbound.use. rewrite Hs.
    split_and!; [done | by exists []; rewrite app_nil_r | done | by left].
  - rewrite handle_intercepted by done.
    split_and!; [done | by exists [Null] | done |].
    intros op. right. apply intercepted_slot.
Qed.

(** On a response nobody patched, emissions are the framework's. *)
Lemma calls_plain cs : ∀ st,
  send (res st) = Original → json (res st) = Original →
  (calls cs st).1 = (plainCalls cs (world st)).1
  ∧ world (calls cs st).2 = (plainCalls cs (world st)).2.
Proof.
  induction cs as [|[op b] cs IH]; intros st Hsend Hjson;
    cbn [calls plainCalls]; [done|].
  unfold call.
  assert (slot op (res st) = Original) as -> by by destruct op.
  cbn [run]. destruct (original op b (world st)) as [r w] eqn:E.
  specialize (IH (setWorld w st) Hsend Hjson). cbn in IH.
  destruct (calls cs (setWorld w st)) as [rs st2],
    (plainCalls cs w) as [rs' w']. cbn in *.
  destruct IH as [-> ->]. done.
Qed.

Lemma calls_cons_snd op b cs st :
  (calls ((op, b) :: cs) st).2 = (calls cs (call op b st).2).2.
Proof.
  cbn [calls]. destruct (call op b st) as [r st1]. cbn [snd].
  by destruct (calls cs st1).
Qed.

Lemma call_frame op b st :
  finishListeners (res (call op b st).2) = finishListeners (res st)
  ∧ length (cells (call op b st).2) = length (cells st).
Proof.
  unfold call.
  by destruct (run_frame op (slot op (res st)) b st) as (_ & _ & -> & _ & ->).
Qed.

End Frames.

Lemma plainCalls_recorder cs : ∀ w,
  plainCalls (F:=recorder) cs w = (map (λ _, Normal Undefined) cs, w ++ cs).
Proof.
  induction cs as [|[op b] cs IH]; intros w; cbn [plainCalls].
  - by rewrite app_nil_r.
  - cbn. rewrite IH. by rewrite <- app_assoc.
Qed.


(** C1, amended: when a middleware does not skip the request, its cell is
    null until a body is emitted and that is what the completion callback
    logs then; the first emission, through either operation, puts its body
    into the cell; and when that first body is truthy, no later emission
    overwrites it: the cell, and the body logged at completion, is the
    first body. *)
Theorem first_truthy_body_is_captured (F : Framework) (mw : Middleware)
    (now t : Z) (req : Request) (st : State F) (op : Op) (b : Value)
    (rest : list (Op * Value)) :
  skips mw req = false →
  truthy b = true →
  let c := length (cells st) in
  let st1 := handle mw now req st in
  let st2 := (calls ((op, b) :: rest) st1).2 in
  readCell c st1 = Null
  ∧ (∃ e, last (sink (finish t st1)) = Some e ∧ loggedBody e = Null)
  ∧ (∀ op' b', readCell c (call op' b' st1).2 = b')
  ∧ readCell c st2 = b
  ∧ (∃ e, last (sink (finish t st2)) = Some e ∧ loggedBody e = b).
Proof.
  intros Hskip Hb c st1 st2. subst st2 st1.
  rewrite handle_intercepted by done. fold c.
  set (l := listenerOf mw now req c).
  destruct (intercepted_cell c l st eq_refl) as [Hin Hnull].
  assert (cellOf l = c) as Hl by by destruct mw.
  assert (∀ op' b', readCell c (call op' b' (intercepted c l st)).2 = b')
    as Hfirst.
  { intros op' b'.
    rewrite (call_records op' c (slot op' (res st)))
      by auto using intercepted_slot.
    by rewrite Hnull. }
  assert (readCell c (calls ((op, b) :: rest) (intercepted c l st)).2 = b)
    as Hkept.
  { rewrite calls_cons_snd. apply calls_keep_cell; [|done|done].
    by destruct (call_frame op b (intercepted c l st)) as [_ ->]. }
  split_and!; [done | | done | done |].
  - destruct (finish_last t (intercepted c l st) (finishListeners (res st)) l)
      as (e & -> & He); [done|].
    exists e. by rewrite last_snoc, He, Hl.
  - destruct (finish_last t (calls ((op, b) :: rest) (intercepted c l st)).2
                (finishListeners (res st)) l) as (e & -> & He).
    { by destruct (calls_frame ((op, b) :: rest) (intercepted c l st))
        as (_ & _ & -> & _). }
    exists e. by rewrite last_snoc, He, Hl.
Qed.

Lemma first_truthy_body_is_captured_witness :
  let st1 :=
    handle (F:=recorder) Fixtures.noMatcher 0 (requestFor "/v1/users")
      (freshState (F:=recorder) Fixtures.okResponse []) in
  let st2 :=
    (calls [(Json, Object [("a", Number 1)]);
            (Json, Object [("a", Number 2)])] st1).2 in
  readCell 0 st2 = Object [("a", Number 1)]
  ∧ ∃ e, last (sink (finish 12 st2)) = Some e
         ∧ loggedBody e = Object [("a", Number 1)].
Proof.
  destruct (first_truthy_body_is_captured recorder Fixtures.noMatcher 0 12
              (requestFor "/v1/users")
              (freshState (F:=recorder) Fixtures.okResponse [])
              Json (Object [("a", Number 1)])
              [(Json, Object [("a", Number 2)])] eq_refl eq_refl)
    as (_ & _ & _ & Hcell & Hlog).
  split; [exact Hcell | exact Hlog].
Defined.

(** C1 as stated fails: a falsy first body (here the empty string) is
    recorded, and then overwritten by the first emission through the other
    operation; the completion callback logs the second body. That is so
    in the audit class as well, and also when the second emission throws
    because the response is already out. *)
Lemma falsy_first_body_is_overwritten :
  let emissions := [(Send, Str ""); (Json, Object [("a", Number 1)])] in
  let st1 :=
    handle (F:=recorder) Fixtures.noMatcher 0 (requestFor "/v1/users")
      (freshState (F:=recorder) Fixtures.okResponse []) in
  let st2 := (calls emissions st1).2 in
  let st1' :=
    handle (F:=strict) AuditLogger 0 (requestFor "/v1/users")
      (freshState (F:=strict) Fixtures.okResponse []) in
  let st2' := (calls emissions st1').2 in
  readCell 0 (call Send (Str "") st1).2 = Str ""
  ∧ readCell 0 st2 = Object [("a", Number 1)]
  ∧ loggedBody <$> sink (finish 12 st2) = [Object [("a", Number 1)]]
  ∧ Object [("a", Number 1)] ≠ Str ""
  ∧ world st2' = [(Send, Str "")]
  ∧ loggedBody <$> sink (finish 12 st2') = [Object [("a", Number 1)]].
Proof.
  split_and!;
    [reflexivity | reflexivity | reflexivity | discriminate
    | reflexivity | reflexivity].
Qed.

(** Scenario 3: no ignore patterns, status 404: one entry, at [warn], with
    the elapsed time. *)
Example not_found_is_logged_once :
  let st1 :=
    handle (F:=recorder) Fixtures.noMatcher 100 (requestFor "/missing")
      (freshState (F:=recorder)
         (freshResponse 404 "Not Found" (Object [])) []) in
  let st2 := (calls [(Json, Object [("statusCode", Number 404)])] st1).2 in
  (λ e, (level e, context e, field "executionTime" (payload e),
         field "message" (payload e)))
    <$> sink (finish 107 st2)
  = [(warn, "InboundHTTPInspection"%string, Str "7ms",
      Str "[HTTP] [INBOUND] [GET] [/missing] [404] [7ms]")].
Proof. reflexivity. Qed.

(** C4: with the interception installed, every emission returns what it
    returns without it and leaves the framework's world as it does without
    it, whatever the slots held before; on a response nobody else patched
    that is the framework's own operation at every call, so the client
    receives b1..bN in order. *)
Theorem interception_is_transparent :
  (∀ (F : Framework) (mw : Middleware) (now : Z) (req : Request)
     (st : State F) (cs : list (Op * Value)),
     (calls cs (handle mw now req st)).1 = (calls cs st).1
     ∧ world (calls cs (handle mw now req st)).2 = world (calls cs st).2)
  ∧ (∀ (F : Framework) (mw : Middleware) (now : Z) (req : Request)
       (status : Z) (message : string) (hs : Value) (w : World)
       (cs : list (Op * Value)),
       let st := freshState (freshResponse status message hs) w in
       (calls cs (handle mw now req st)).1 = (plainCalls cs w).1
       ∧ world (calls cs (handle mw now req st)).2 = (plainCalls cs w).2)
  ∧ (∀ (mw : Middleware) (now : Z) (req : Request) (status : Z)
       (message : string) (hs : Value) (cs : list (Op * Value)),
       world (calls cs
                (handle (F:=recorder) mw now req
                   (freshState (F:=recorder)
                      (freshResponse status message hs) []))).2
       = cs).
Proof.
  assert (∀ (F : Framework) mw now req (st : State F) cs,
            (calls cs (handle mw now req st)).1 = (calls cs st).1
            ∧ world (calls cs (handle mw now req st)).2
              = world (calls cs st).2) as Hgen.
  { intros F mw now req st cs.
    destruct (calls_shadow (length (cells st)) cs (handle mw now req st) st
                (handle_shadows mw now req st)) as (Hr & Hw & _).
    done. }
  assert (∀ (F : Framework) mw now req status message hs (w : World) cs,
            let st := freshState (freshResponse status message hs) w in
            (calls cs (handle mw now req st)).1 = (plainCalls cs w).1
            ∧ world (calls cs (handle mw now req st)).2
              = (plainCalls cs w).2) as Hfresh.
  { intros F mw now req status message hs w cs st.
    destruct (Hgen F mw now req st cs) as [-> ->].
    by apply (calls_plain cs st). }
  split_and!; [exact Hgen | exact Hfresh |].
  intros mw now req status message hs cs.
  destruct (Hfresh recorder mw now req status message hs [] cs) as [_ ->].
  by rewrite plainCalls_recorder.
Qed.

(** C5: on a request whose trimmed path matches the ignore list, [use]
    does nothing but call the continuation once: the response keeps its
    slots and callbacks, no cell is declared, nothing is logged then or
    at completion. *)
Theorem ignored_route_passes_through (F : Framework)
    (ignoredRoutes : list RegExp) (now : Z) (req : Request) (st : State F) :
  Inbound.shouldIgnoreRoute ignoredRoutes req = true →
  Inbound.use ignoredRoutes now req st = next st
  ∧ nextCalls (Inbound.use ignoredRoutes now req st) = S (nextCalls st)
  ∧ res (Inbound.use ignoredRoutes now req st) = res st
  ∧ cells (Inbound.use ignoredRoutes now req st) = cells st
  ∧ sink (Inbound.use ignoredRoutes now req st) = sink st
  ∧ ∀ status message hs w cs t,
      sink (finish t
              (calls cs
                 (Inbound.use ignoredRoutes now req
                    (freshState (freshResponse status message hs) w))).2)
      = [].
Proof.
  intros Hskip. unfold Inbound.use. rewrite Hskip.
  split_and!; try done.
  intros status message hs w cs t.
  set (st0 := next (freshState (freshResponse status message hs) w)).
  destruct (calls_frame cs st0) as (Hsink & _ & Hls & _).
  rewrite foldl_fire_nil_sink; [by rewrite Hsink | by rewrite Hls].
Qed.

Lemma ignored_route_passes_through_witness :
  ∃ rs,
    Inbound.compileRoutes ["/v1/accounts/*/holder"]%string = Some (Normal rs)
    ∧ Inbound.shouldIgnoreRoute rs (requestFor "/v1/accounts/42/holder")
      = true
    ∧ Inbound.use (F:=recorder) rs 0 (requestFor "/v1/accounts/42/holder")
        (freshState (F:=recorder) Fixtures.okResponse [])
      = next (freshState (F:=recorder) Fixtures.okResponse []).
Proof.
  eexists. split; [reflexivity|]. split; [reflexivity|].
  refine (proj1 (ignored_route_passes_through recorder _ 0
                   (requestFor "/v1/accounts/42/holder")
                   (freshState (F:=recorder) Fixtures.okResponse []) _)).
  reflexivity.
Defined.

(** C7: when the emission operation as it was before the interception
    throws, the call through the interception throws the same exception and
    leaves the framework's world as that operation did; the body is in the
    cell by then, since the operation only starts from the state in which
    the cell was written and the slot restored. *)
Theorem original_throw_propagates (F : Framework) (mw : Middleware)
    (now : Z) (req : Request) (st : State F) (op : Op) (b : Value) (e : Err) :
  skips mw req = false →
  (call op b st).1 = Abrupt e →
  let c := length (cells st) in
  let st1 := handle mw now req st in
  (call op b st1).1 = Abrupt e
  ∧ world (call op b st1).2 = world (call op b st).2
  ∧ readCell c (call op b st1).2 = b
  ∧ call op b st1
    = run op (slot op (res st)) b
        (setSlot op (slot op (res st)) (writeCell c b st1)).
Proof.
  intros Hskip Hthrow c st1.
  destruct (call_shadow c op b st1 st (handle_shadows mw now req st))
    as (Hr & Hw & _).
  subst st1. rewrite handle_intercepted in * by done. fold c in Hr, Hw |- *.
  set (l := listenerOf mw now req c) in *.
  destruct (intercepted_cell c l st eq_refl) as [Hin Hnull].
  split_and!; [congruence | done | |].
  - rewrite (call_records op c (slot op (res st)))
      by auto using intercepted_slot.
    by rewrite Hnull.
  - rewrite (call_capture op c (slot op (res st)))
      by auto using intercepted_slot.
    by rewrite Hnull.
Qed.

Lemma original_throw_propagates_witness :
  let st :=
    freshState (F:=strict) Fixtures.okResponse [(Send, Str "first")] in
  let st1 := handle (F:=strict) AuditLogger 0 (requestFor "/v1/users") st in
  (call Json (Str "second") st).1 = Abrupt (Str "ERR_HTTP_HEADERS_SENT")
  ∧ (call Json (Str "second") st1).1 = Abrupt (Str "ERR_HTTP_HEADERS_SENT")
  ∧ readCell 0 (call Json (Str "second") st1).2 = Str "second".
Proof.
  intros st st1.
  destruct (original_throw_propagates strict AuditLogger 0
              (requestFor "/v1/users") st Json (Str "second")
              (Str "ERR_HTTP_HEADERS_SENT") eq_refl eq_refl)
    as (Hr & _ & Hc & _).
  split; [reflexivity|]. split; [exact Hr | exact Hc].
Defined.

End CaptureFacts.

(** ** Severity *)
Module LevelFacts.

Import Js Express.

Lemma getLogLevel_severity (r : Response) :
  Inbound.getLogLevel r = Contract.severity (statusCode r)
  ∧ Audit.getLogLevel r = Contract.severity (statusCode r).
Proof.
  unfold Inbound.getLogLevel, Audit.getLogLevel, Contract.severity.
  destruct (Z.geb_spec (statusCode r) 500), (Z.geb_spec (statusCode r) 400);
    repeat case_decide; done || lia.
Qed.

(** C3: in both middleware classes the level is [error] from 500 up,
    [warn] from 400 to 499 and [log] below 400; 399, 400, 499 and 500 fall
    as the tiers say. *)
Theorem getLogLevel_tiers (r : Response) :
  (500 <= statusCode r →
   Inbound.getLogLevel r = error ∧ Audit.getLogLevel r = error)
  ∧ (400 <= statusCode r < 500 →
     Inbound.getLogLevel r = warn ∧ Audit.getLogLevel r = warn)
  ∧ (statusCode r < 400 →
     Inbound.getLogLevel r = log ∧ Audit.getLogLevel r = log)
  ∧ Inbound.getLogLevel r = Contract.severity (statusCode r)
  ∧ Audit.getLogLevel r = Contract.severity (statusCode r)
  ∧ (Inbound.getLogLevel (Fixtures.withStatus 399) = log
     ∧ Inbound.getLogLevel (Fixtures.withStatus 400) = warn
     ∧ Inbound.getLogLevel (Fixtures.withStatus 499) = warn
     ∧ Inbound.getLogLevel (Fixtures.withStatus 500) = error)
  ∧ (Audit.getLogLevel (Fixtures.withStatus 399) = log
     ∧ Audit.getLogLevel (Fixtures.withStatus 400) = warn
     ∧ Audit.getLogLevel (Fixtures.withStatus 499) = warn
     ∧ Audit.getLogLevel (Fixtures.withStatus 500) = error).
Proof.
  destruct (getLogLevel_severity r) as [Hi Ha].
  split_and!; try done; intros Hc; rewrite Hi, Ha;
    unfold Contract.severity; repeat case_decide; done || lia.
Qed.

Lemma getLogLevel_tiers_witness :
  (Inbound.getLogLevel (Fixtures.withStatus 503) = error
   ∧ Audit.getLogLevel (Fixtures.withStatus 503) = error)
  ∧ (Inbound.getLogLevel (Fixtures.withStatus 404) = warn
     ∧ Audit.getLogLevel (Fixtures.withStatus 404) = warn)
  ∧ (Inbound.getLogLevel (Fixtures.withStatus 204) = log
     ∧ Audit.getLogLevel (Fixtures.withStatus 204) = log).
Proof.
  split_and!.
  - apply (proj1 (getLogLevel_tiers (Fixtures.withStatus 503))).
    simpl. lia.
  - apply (proj1 (getLogLevel_tiers (Fixtures.withStatus 503))).
    simpl. lia.
  - apply (proj1 (proj2 (getLogLevel_tiers (Fixtures.withStatus 404)))).
    simpl. lia.
  - apply (proj1 (proj2 (getLogLevel_tiers (Fixtures.withStatus 404)))).
    simpl. lia.
  - apply (proj1 (proj2 (proj2 (getLogLevel_tiers (Fixtures.withStatus 204))))).
    simpl. lia.
  - apply (proj1 (proj2 (proj2 (getLogLevel_tiers (Fixtures.withStatus 204))))).
    simpl. lia.
Defined.

(** C9: the two middleware classes choose the same level for every
    response. *)
Theorem getLogLevel_variants_agree (r : Response) :
  Inbound.getLogLevel r = Audit.getLogLevel r.
Proof.
  unfold Inbound.getLogLevel, Audit.getLogLevel.
  destruct (statusCode r >=? 500), (statusCode r >=? 400); reflexivity.
Qed.

End LevelFacts.

(** ** Configuration *)
Module ConfigFacts.

Import Js Express Inbound.

Lemma includes_modes (v : Value) :
  includes ["all"; "inbound"]%string v = true
  ↔ v = Str "all" ∨ v = Str "inbound".
Proof.
  split.
  - destruct v as [| | | | |s| |]; try discriminate. cbn.
    rewrite !orb_true_iff, !String.eqb_eq. intros [-> | [-> | ?]]; auto.
    discriminate.
  - intros [-> | ->]; reflexivity.
Qed.

Lemma configure_disabled opts app logged :
  includes ["all"; "inbound"]%string (configGet modeKey (Str "inbound") app)
  = false →
  configureHttpInspectorInbound opts app logged = Some (Normal app, logged).
Proof.
  intros H. unfold configureHttpInspectorInbound. by rewrite H.
Qed.

Lemma configure_enabled opts app logged :
  includes ["all"; "inbound"]%string (configGet modeKey (Str "inbound") app)
  = true →
  ∃ logged1,
    configureHttpInspectorInbound opts app logged
    = match compileRoutes (ignoreRoutesOf opts) with
      | Some (Normal rs) =>
        Some (Normal (appUse (InboundInspector className rs) app),
              logged1 ++
              [mkLogEntry log configContext
                 (Str "Inbound http inspection initialized")])
      | Some (Abrupt e) => Some (Abrupt e, logged1)
      | None => None
      end.
Proof.
  intros H. unfold configureHttpInspectorInbound.
  rewrite H. cbn [negb]. eexists. reflexivity.
Qed.

(** C8, amended: for a mode other than 'all' and 'inbound' the application
    comes back as it was, with nothing registered and nothing logged; for
    'all' or 'inbound' the inspector is registered, last in the chain,
    provided every ignore route compiles, and when the RegExp constructor
    rejects one its error comes out and nothing is registered; a changed
    application means the mode was 'all' or 'inbound'. *)
Theorem configure_installs_when_enabled (opts : option InspectionOptions)
    (app : App) (logged : list LogEntry) :
  let mode := configGet modeKey (Str "inbound") app in
  (¬ (mode = Str "all" ∨ mode = Str "inbound") →
   configureHttpInspectorInbound opts app logged = Some (Normal app, logged))
  ∧ (mode = Str "all" ∨ mode = Str "inbound" →
     ∀ rs, compileRoutes (ignoreRoutesOf opts) = Some (Normal rs) →
     ∃ logged',
       configureHttpInspectorInbound opts app logged
       = Some (Normal (appUse (InboundInspector className rs) app), logged'))
  ∧ (mode = Str "all" ∨ mode = Str "inbound" →
     ∀ e, compileRoutes (ignoreRoutesOf opts) = Some (Abrupt e) →
     ∃ logged',
       configureHttpInspectorInbound opts app logged
       = Some (Abrupt e, logged'))
  ∧ (∀ app' logged',
       configureHttpInspectorInbound opts app logged
       = Some (Normal app', logged') →
       app' ≠ app →
       mode = Str "all" ∨ mode = Str "inbound").
Proof.
  intros mode. split_and!.
  - intros Hno. apply configure_disabled.
    apply not_true_iff_false. by rewrite includes_modes.
  - intros Hyes rs Hrs. apply includes_modes in Hyes.
    destruct (configure_enabled opts app logged Hyes) as [l1 ->].
    rewrite Hrs. eauto.
  - intros Hyes e He. apply includes_modes in Hyes.
    destruct (configure_enabled opts app logged Hyes) as [l1 ->].
    rewrite He. eauto.
  - intros app' logged' Hc Hne. apply includes_modes.
    destruct (includes ["all"; "inbound"]%string
                (configGet modeKey (Str "inbound") app)) eqn:E; [done|].
    rewrite (configure_disabled opts app logged E) in Hc. congruence.
Qed.

Lemma configure_installs_when_enabled_witness :
  configureHttpInspectorInbound (Fixtures.routes ["/health"]%string)
    (Fixtures.appWithMode "none") []
  = Some (Normal (Fixtures.appWithMode "none"), [])
  ∧ ∃ rs logged',
      compileRoutes ["/health"]%string = Some (Normal rs)
      ∧ configureHttpInspectorInbound (Fixtures.routes ["/health"]%string)
          (Fixtures.appWithMode "all") []
        = Some (Normal (appUse (InboundInspector className rs)
                          (Fixtures.appWithMode "all")), logged').
Proof.
  split.
  - apply (proj1 (configure_installs_when_enabled
                    (Fixtures.routes ["/health"]%string)
                    (Fixtures.appWithMode "none") [])).
    vm_compute. intros [H | H]; discriminate H.
  - eexists.
    destruct (proj1 (proj2 (configure_installs_when_enabled
                              (Fixtures.routes ["/health"]%string)
                              (Fixtures.appWithMode "all") []))
                (or_introl eq_refl) _ eq_refl) as [logged' H].
    exists logged'. split; [reflexivity | exact H].
Defined.

(** C8 as stated fails: the mode is 'all', one ignore route is a glob
    with a double star, the RegExp constructor throws and the inspector is
    never registered. *)
Lemma enabled_mode_bad_route_installs_nothing :
  configGet modeKey (Str "inbound") (Fixtures.appWithMode "all") = Str "all"
  ∧ routeRegExp "/files/**" = Some (Abrupt SyntaxError)
  ∧ ∃ logged',
      configureHttpInspectorInbound (Fixtures.routes ["/files/**"]%string)
        (Fixtures.appWithMode "all") []
      = Some (Abrupt SyntaxError, logged').
Proof. split_and!; [reflexivity | reflexivity | eexists; reflexivity]. Qed.

(** C10, amended: with no value under TRAFFIC_INSPECTION_HTTP the mode is
    'inbound', and the inspector is registered provided every ignore route
    compiles, as is the case when no options are passed. *)
Theorem unset_mode_defaults_to_inbound (opts : option InspectionOptions)
    (app : App) (logged : list LogEntry) :
  config app !! modeKey = None →
  configGet modeKey (Str "inbound") app = Str "inbound"
  ∧ (∀ rs, compileRoutes (ignoreRoutesOf opts) = Some (Normal rs) →
     ∃ logged',
       configureHttpInspectorInbound opts app logged
       = Some (Normal (appUse (InboundInspector className rs) app), logged'))
  ∧ (∃ logged',
       configureHttpInspectorInbound None app logged
       = Some (Normal (appUse (InboundInspector className []) app), logged')).
Proof.
  intros Hnone.
  assert (configGet modeKey (Str "inbound") app = Str "inbound") as Hmode.
  { unfold configGet. by rewrite Hnone. }
  assert (includes ["all"; "inbound"]%string
            (configGet modeKey (Str "inbound") app) = true) as Hyes.
  { by rewrite Hmode. }
  split_and!; [done | |].
  - intros rs Hrs.
    destruct (configure_enabled opts app logged Hyes) as [l1 ->].
    rewrite Hrs. eauto.
  - destruct (configure_enabled None app logged Hyes) as [l1 ->]. cbn. eauto.
Qed.

Lemma unset_mode_defaults_to_inbound_witness :
  configGet modeKey (Str "inbound") Fixtures.appUnset = Str "inbound"
  ∧ ∃ logged',
      configureHttpInspectorInbound None Fixtures.appUnset []
      = Some (Normal (appUse (InboundInspector className [])
                        Fixtures.appUnset), logged').
Proof.
  destruct (unset_mode_defaults_to_inbound None Fixtures.appUnset []
              eq_refl) as (Hmode & _ & Hinst).
  split; [exact Hmode | exact Hinst].
Defined.

(** C10 as stated fails: the mode is left unconfigured and resolves to
    'inbound', yet with a route the RegExp constructor rejects the
    inspector is not registered. *)
Lemma unset_mode_bad_route_installs_nothing :
  config Fixtures.appUnset !! modeKey = None
  ∧ configGet modeKey (Str "inbound") Fixtures.appUnset = Str "inbound"
  ∧ ∃ logged',
      configureHttpInspectorInbound (Fixtures.routes ["/files/**"]%string)
        Fixtures.appUnset []
      = Some (Abrupt SyntaxError, logged').
Proof. split_and!; [reflexivity | reflexivity | eexists; reflexivity]. Qed.

End ConfigFacts.

(** * Further properties *)

(** ** Routes *)
Module RouteExtras.
Import Js Express Lifecycle Contract Serving RouteFacts.

Lemma chars_app (s t : string) : chars (s +:+ t) = chars s ++ chars t.
Proof. induction s as [|c s IH]; simpl; [done | by rewrite IH]. Qed.

(** *** Order and union of routes *)

Lemma shouldIgnoreRoute_app rs rs' req :
  Inbound.shouldIgnoreRoute (rs ++ rs') req
  = Inbound.shouldIgnoreRoute rs req || Inbound.shouldIgnoreRoute rs' req.
Proof. unfold Inbound.shouldIgnoreRoute. apply existsb_app. Qed.

(** X1: The order of the compiled routes does not matter. *)
Theorem shouldIgnoreRoute_permutation rs rs' req :
  rs ≡ₚ rs' →
  Inbound.shouldIgnoreRoute rs req = Inbound.shouldIgnoreRoute rs' req.
Proof.
  unfold Inbound.shouldIgnoreRoute.
  induction 1 as [|r l l' _ IH|r r' l|l l' l'' _ IH1 _ IH2]; cbn.
  - done.
  - by rewrite IH.
  - destruct (test r _), (test r' _); done.
  - congruence.
Qed.

Lemma shouldIgnoreRoute_permutation_witness :
  let health := mkRegExp (termsOf (chars "/health")) true in
  let accounts := mkRegExp (termsOf (chars "/v1/accounts/*")) true in
  Inbound.shouldIgnoreRoute [health; accounts] (requestFor "/v1/accounts/7")
  = Inbound.shouldIgnoreRoute [accounts; health] (requestFor "/v1/accounts/7").
Proof.
  intros health accounts.
  apply (shouldIgnoreRoute_permutation [health; accounts] [accounts; health]).
  apply perm_swap.
Defined.

Lemma compileRoutes_app routes routes' :
  Inbound.compileRoutes (routes ++ routes')
  = match Inbound.compileRoutes routes with
    | Some (Normal rs) =>
      match Inbound.compileRoutes routes' with
      | Some (Normal rs') => Some (Normal (rs ++ rs'))
      | other => other
      end
    | other => other
    end.
Proof.
  induction routes as [|x routes IH]; cbn [app Inbound.compileRoutes].
  - by destruct (Inbound.compileRoutes routes') as [[?|?]|].
  - destruct (Inbound.routeRegExp x) as [[r|e]|]; [|done|done].
    rewrite IH. destruct (Inbound.compileRoutes routes) as [[rs|e]|];
      [|done|done].
    by destruct (Inbound.compileRoutes routes') as [[?|?]|].
Qed.

(** X2: Two route lists that compile ignore together what either ignores, and
    a route list that throws makes the whole list throw. *)
Theorem shouldIgnore_union routes routes' rs rs' p :
  Inbound.compileRoutes routes = Some (Normal rs) →
  Inbound.compileRoutes routes' = Some (Normal rs') →
  Inbound.compileRoutes (routes ++ routes') = Some (Normal (rs ++ rs'))
  ∧ shouldIgnore (routes ++ routes') p
    = Some (Normal (Inbound.shouldIgnoreRoute rs (requestFor p)
                    || Inbound.shouldIgnoreRoute rs' (requestFor p)))
  ∧ (shouldIgnore routes p = Some (Normal true) →
     shouldIgnore (routes ++ routes') p = Some (Normal true)).
Proof.
  intros H1 H2.
  assert (Inbound.compileRoutes (routes ++ routes')
          = Some (Normal (rs ++ rs'))) as H12.
  { by rewrite compileRoutes_app, H1, H2. }
  unfold shouldIgnore. rewrite H12, H1, shouldIgnoreRoute_app.
  split_and!; [done | done |].
  intros [= ->]. done.
Qed.


Lemma shouldIgnore_union_witness :
  let health := mkRegExp (termsOf (chars "/health")) true in
  let accounts := mkRegExp (termsOf (chars "/v1/accounts/*")) true in
  Inbound.compileRoutes (["/health"%string] ++ ["/v1/accounts/*"%string])
  = Some (Normal ([health] ++ [accounts]))
  ∧ shouldIgnore (["/health"%string] ++ ["/v1/accounts/*"%string]) "/health"
    = Some (Normal true).
Proof.
  intros health accounts.
  destruct (shouldIgnore_union ["/health"]%string ["/v1/accounts/*"]%string
              [health] [accounts] "/health" eq_refl eq_refl)
    as (Hc & _ & Hmono).
  split; [exact Hc | apply Hmono; reflexivity].
Defined.

(** *** Whitespace around the path *)

Lemma trimStart_ws_app ws s :
  forallb isWhiteSpace ws = true → trimStart (ws ++ s) = trimStart s.
Proof.
  induction ws as [|c ws IH]; cbn; [done|].
  intros [Hc Hws]%andb_true_iff. rewrite Hc. auto.
Qed.

Lemma trimStart_ws ws : forallb isWhiteSpace ws = true → trimStart ws = [].
Proof. intros H. rewrite <- (app_nil_r ws). by rewrite trimStart_ws_app. Qed.

Lemma trimStart_app s t :
  trimStart (s ++ t)
  = if forallb isWhiteSpace s then trimStart t else trimStart s ++ t.
Proof.
  induction s as [|c s IH]; cbn; [done|].
  destruct (isWhiteSpace c); cbn; [apply IH | done].
Qed.

Lemma forallb_rev {A} (f : A → bool) l : forallb f (rev l) = forallb f l.
Proof.
  induction l as [|x l IH]; cbn; [done|].
  rewrite forallb_app, IH. cbn. rewrite andb_true_r. apply andb_comm.
Qed.

Lemma trimEnd_app_ws s ws :
  forallb isWhiteSpace ws = true → trimEnd (s ++ ws) = trimEnd s.
Proof.
  intros H. unfold trimEnd. rewrite rev_app_distr.
  by rewrite trimStart_ws_app by by rewrite forallb_rev.
Qed.

Lemma trim_padded ws1 s ws2 :
  forallb isWhiteSpace ws1 = true → forallb isWhiteSpace ws2 = true →
  trim (ws1 ++ s ++ ws2) = trim s.
Proof.
  intros H1 H2. unfold trim. rewrite trimStart_ws_app by done.
  rewrite trimStart_app. destruct (forallb isWhiteSpace s) eqn:Hs.
  - by rewrite (trimStart_ws ws2), (trimStart_ws s).
  - by apply trimEnd_app_ws.
Qed.

(** X3: Whitespace before and after the path does not change whether the
    request is ignored, whatever the routes. *)
Theorem shouldIgnoreRoute_padding rs req (pad1 pad2 : string) :
  forallb isWhiteSpace (chars pad1) = true →
  forallb isWhiteSpace (chars pad2) = true →
  Inbound.shouldIgnoreRoute rs (withPath (pad1 +:+ path req +:+ pad2) req)
  = Inbound.shouldIgnoreRoute rs req.
Proof.
  intros H1 H2. unfold Inbound.shouldIgnoreRoute. cbn [path withPath].
  by rewrite !chars_app, trim_padded.
Qed.

Lemma shouldIgnoreRoute_padding_witness :
  ∃ rs,
    Inbound.compileRoutes ["/health"]%string = Some (Normal rs)
    ∧ Inbound.shouldIgnoreRoute rs
        (withPath ("  " +:+ path (requestFor "/health") +:+ " ")
           (requestFor "/health"))
      = Inbound.shouldIgnoreRoute rs (requestFor "/health").
Proof.
  eexists. split; [reflexivity|].
  apply (shouldIgnoreRoute_padding _ (requestFor "/health") "  " " ");
    reflexivity.
Defined.

(** *** Letter case of the path *)

Lemma canonicalize_space c :
  isWhiteSpace (canonicalize c) = isWhiteSpace c
  ∧ isLineTerminator (canonicalize c) = isLineTerminator c.
Proof. destruct c as [[] [] [] [] [] [] [] []]; by vm_compute. Qed.

Lemma sameChar_canonicalize c d :
  sameChar true c d = true → canonicalize c = canonicalize d.
Proof. cbn. apply Ascii.eqb_eq. Qed.

Lemma sameChar_space c d :
  sameChar true c d = true →
  isWhiteSpace c = isWhiteSpace d ∧ isLineTerminator c = isLineTerminator d.
Proof.
  intros H%sameChar_canonicalize.
  destruct (canonicalize_space c) as [<- <-].
  destruct (canonicalize_space d) as [<- <-]. by rewrite H.
Qed.

Lemma sameUpToCase_trimStart s s' :
  sameUpToCase s s' → sameUpToCase (trimStart s) (trimStart s').
Proof.
  induction 1 as [|c d s s' Hcd Hs IH]; cbn; [constructor|].
  destruct (sameChar_space c d Hcd) as [<- _].
  destruct (isWhiteSpace c); [done | by constructor].
Qed.

Lemma sameUpToCase_rev s s' :
  sameUpToCase s s' → sameUpToCase (rev s) (rev s').
Proof.
  induction 1 as [|c d s s' Hcd Hs IH]; cbn; [constructor|].
  apply Forall2_app; [done | by repeat constructor].
Qed.

Lemma sameUpToCase_trim s s' :
  sameUpToCase s s' → sameUpToCase (trim s) (trim s').
Proof.
  intros H. unfold trim, trimEnd.
  by apply sameUpToCase_rev, sameUpToCase_trimStart, sameUpToCase_rev,
    sameUpToCase_trimStart.
Qed.

Lemma atomMatches_case a c d :
  sameChar true c d = true → atomMatches true a c = atomMatches true a d.
Proof.
  intros H. destruct a as [l|]; cbn.
  - by rewrite (sameChar_canonicalize c d H).
  - by destruct (sameChar_space c d H) as [_ ->].
Qed.

Lemma many_case ok k s s' :
  (∀ c d, sameChar true c d = true → ok c = ok d) →
  (∀ s s', sameUpToCase s s' → k s = k s') →
  sameUpToCase s s' → many ok k s = many ok k s'.
Proof.
  intros Hok Hk. induction 1 as [|c d s s' Hcd Hs IH]; cbn.
  - done.
  - rewrite (Hk (c :: s) (d :: s')) by by constructor.
    by rewrite (Hok c d Hcd), IH.
Qed.

Lemma one_case ok k s s' :
  (∀ c d, sameChar true c d = true → ok c = ok d) →
  (∀ s s', sameUpToCase s s' → k s = k s') →
  sameUpToCase s s' → one ok k s = one ok k s'.
Proof.
  intros Hok Hk. destruct 1 as [|c d s s' Hcd Hs]; cbn; [done|].
  by rewrite (Hok c d Hcd), (Hk s s' Hs).
Qed.

Lemma matchTerms_case ts : ∀ s s',
  sameUpToCase s s' → matchTerms true ts s = matchTerms true ts s'.
Proof.
  induction ts as [|[a q] ts IH]; intros s s' H.
  - by destruct H.
  - cbn [matchTerms]. destruct q.
    + apply one_case; auto using atomMatches_case.
    + apply many_case; auto using atomMatches_case.
    + apply one_case; auto using atomMatches_case.
      intros. apply many_case; auto using atomMatches_case.
    + rewrite (IH s s' H). f_equal.
      apply one_case; auto using atomMatches_case.
Qed.

Lemma routeRegExp_ignoreCase x r :
  Inbound.routeRegExp x = Some (Normal r) → ignoreCase r = true.
Proof.
  unfold Inbound.routeRegExp, newRegExp. cbn match.
  destruct (parseBody _ _) as [[ts|e]|]; [|done|done]. by intros [= <-].
Qed.

Lemma compileRoutes_ignoreCase routes : ∀ rs,
  Inbound.compileRoutes routes = Some (Normal rs) →
  Forall (λ r, ignoreCase r = true) rs ∧ length rs = length routes.
Proof.
  induction routes as [|x routes IH]; intros rs; cbn [Inbound.compileRoutes].
  - intros [= <-]. by split.
  - destruct (Inbound.routeRegExp x) as [[r|e]|] eqn:Hx; [|done|done].
    destruct (Inbound.compileRoutes routes) as [[rs'|e]|]; [|done|done].
    intros [= <-]. destruct (IH rs' eq_refl) as [Hall Hlen].
    split; [constructor; eauto using routeRegExp_ignoreCase | cbn; lia].
Qed.

(** X4: Routes that went through [configureHttpInspectorInbound] do not see
    the letter case of the path. *)
Theorem shouldIgnoreRoute_path_case routes rs req (p p' : string) :
  Inbound.compileRoutes routes = Some (Normal rs) →
  sameUpToCase (chars p) (chars p') →
  Inbound.shouldIgnoreRoute rs (withPath p req)
  = Inbound.shouldIgnoreRoute rs (withPath p' req).
Proof.
  intros Hrs Hp. destruct (compileRoutes_ignoreCase routes rs Hrs) as [Hic _].
  unfold Inbound.shouldIgnoreRoute. cbn [path withPath].
  apply sameUpToCase_trim in Hp. clear Hrs.
  induction Hic as [|r rs Hr _ IH]; cbn; [done|].
  rewrite IH. unfold test at 1 3. rewrite Hr.
  by rewrite (matchTerms_case _ _ _ Hp).
Qed.

Lemma shouldIgnoreRoute_path_case_witness :
  ∃ rs,
    Inbound.compileRoutes ["/v1/accounts/*"]%string = Some (Normal rs)
    ∧ Inbound.shouldIgnoreRoute rs
        (withPath "/V1/Accounts/Ab" (requestFor "/"))
      = Inbound.shouldIgnoreRoute rs
          (withPath "/v1/accounts/aB" (requestFor "/")).
Proof.
  eexists. split; [reflexivity|].
  apply (shouldIgnoreRoute_path_case ["/v1/accounts/*"]%string _
           (requestFor "/") "/V1/Accounts/Ab" "/v1/accounts/aB");
    [reflexivity|].
  repeat (constructor; [reflexivity|]). constructor.
Defined.


(** *** What a route with a wildcard ignores *)

Lemma literal_no_wildcard p :
  literal p = true → Forall (λ c, isSyntax c = false ∧ isWildcard c = false) p.
Proof.
  induction p as [|c p IH]; [constructor|].
  intros (? & ? & ?)%literal_cons. constructor; auto.
Qed.

Lemma literal_plain p : literal p = true → plain p = true.
Proof.
  induction p as [|c p IH]; [done|].
  intros (Hs & Hw & Hp)%literal_cons. cbn. rewrite Hw, Hs. auto.
Qed.

Lemma plain_wildcard pre post :
  literal pre = true → literal post = true →
  plain (pre ++ "*"%char :: post) = true.
Proof.
  intros Hpre Hpost. induction pre as [|c pre IH]; [done|].
  apply literal_cons in Hpre as (Hs & Hw & Hpre). cbn.
  rewrite Hw, Hs. auto.
Qed.

Lemma termsOf_app p p' : termsOf (p ++ p') = termsOf p ++ termsOf p'.
Proof. unfold termsOf. apply map_app. Qed.

(** A stretch of literal terms takes a stretch of the same length that
    differs in letter case only. *)
Lemma matchTerms_literal_prefix pre ts : ∀ s,
  literal pre = true →
  matchTerms true (termsOf pre ++ ts) s = true
  ↔ ∃ u r, s = u ++ r ∧ sameUpToCase pre u ∧ matchTerms true ts r = true.
Proof.
  induction pre as [|c pre IH]; intros s Hpre.
  - cbn. split.
    + intros H. exists [], s. split_and!; [done | constructor | done].
    + intros (u & r & -> & Hu & Hr). by inversion Hu.
  - apply literal_cons in Hpre as (Hs & Hw & Hpre).
    rewrite termsOf_literal_cons by done. cbn [app matchTerms].
    rewrite one_true. split.
    + intros (d & r & -> & Hd & Hm). apply IH in Hm as (u & r' & -> & Hu & Hr);
        [|done].
      exists (d :: u), r'. split_and!; [done | by constructor | done].
    + intros (u & r & -> & Hu & Hr). inversion Hu as [|? d ? u' Hd Hu']; subst.
      exists d, (u' ++ r). split_and!; [done | done |].
      apply IH; [done|]. eauto.
Qed.

Lemma matchTerms_dot_plus ts s :
  matchTerms true ((Dot, OneOrMore) :: ts) s = true
  ↔ ∃ w r, s = w ++ r ∧ w ≠ [] ∧ forallb lineChar w = true
           ∧ matchTerms true ts r = true.
Proof.
  cbn [matchTerms]. rewrite one_true. split.
  - intros (d & r & -> & Hd & (w & r' & -> & Hw & Hr)%many_true).
    exists (d :: w), r'. split_and!; [done | done | | done].
    cbn. apply andb_true_iff. split; [exact Hd | exact Hw].
  - intros (w & r & -> & Hne & Hw & Hr). destruct w as [|d w]; [done|].
    cbn in Hw. apply andb_true_iff in Hw as [Hd Hw].
    exists d, (w ++ r). split_and!; [done | exact Hd |].
    apply many_true. exists w, r. split_and!; [done | exact Hw | done].
Qed.

Lemma matchTerms_char_star c s :
  matchTerms true [(Lit c, ZeroOrMore)] s = true
  ↔ Forall (λ d, sameChar true c d = true) s.
Proof.
  cbn [matchTerms]. rewrite many_true. split.
  - intros (w & r & -> & Hw & Hr). destruct r; [|done].
    rewrite app_nil_r. apply Forall_forall. intros d Hd.
    apply list_elem_of_In in Hd.
    rewrite forallb_forall in Hw. by apply Hw.
  - intros H. exists s, []. split_and!; [by rewrite app_nil_r | | done].
    apply forallb_forall. intros d Hd. apply list_elem_of_In in Hd.
    rewrite Forall_forall in H. by apply H.
Qed.

Lemma shouldIgnore_single x ts p :
  Inbound.routeRegExp x = Some (Normal (mkRegExp ts true)) →
  shouldIgnore [x] p
  = Some (Normal (matchTerms true ts (trim (chars p)))).
Proof.
  intros Hx. unfold shouldIgnore. cbn [Inbound.compileRoutes]. rewrite Hx.
  cbn. by rewrite orb_false_r.
Qed.

(** X5: A route without wildcard and without RegExp syntax ignores the paths
    that, trimmed, are the route up to letter case; no others. *)
Theorem literal_route_ignores (x p : string) :
  literal (chars x) = true →
  ∃ b, shouldIgnore [x] p = Some (Normal b)
       ∧ (b = true ↔ sameUpToCase (chars x) (trim (chars p))).
Proof.
  intros Hx. eexists. split.
  - apply shouldIgnore_single, routeRegExp_plain. by apply literal_plain.
  - rewrite <- (app_nil_r (termsOf (chars x))).
    rewrite matchTerms_literal_prefix by done. split.
    + intros (u & r & -> & Hu & ->%matchTerms_nil). by rewrite app_nil_r.
    + intros H. exists (trim (chars p)), []. by rewrite app_nil_r.
Qed.

Lemma literal_route_ignores_witness :
  ∃ b, shouldIgnore ["/health"]%string " /Health" = Some (Normal b)
       ∧ (b = true
          ↔ sameUpToCase (chars "/health") (trim (chars " /Health"))).
Proof. apply (literal_route_ignores "/health" " /Health"). reflexivity. Defined.

(** X6: A route with one wildcard ignores the paths that, trimmed, are the
    text before the wildcard, one or more characters other than line
    terminators, and the text after it, up to letter case. A path no longer
    than the route without its wildcard is never ignored. *)
Theorem wildcard_route_ignores (pre post p : string) :
  literal (chars pre) = true →
  literal (chars post) = true →
  ∃ b, shouldIgnore [pre +:+ "*" +:+ post]%string p = Some (Normal b)
       ∧ (b = true
          ↔ ∃ u w v,
              trim (chars p) = u ++ w ++ v
              ∧ sameUpToCase (chars pre) u
              ∧ w ≠ [] ∧ forallb lineChar w = true
              ∧ sameUpToCase (chars post) v)
       ∧ ((length (trim (chars p))
           ≤ length (chars pre) + length (chars post))%nat → b = false).
Proof.
  intros Hpre Hpost.
  assert (chars (pre +:+ "*" +:+ post) = chars pre ++ "*"%char :: chars post)
    as Hx by by rewrite !chars_app.
  assert (∀ s, matchTerms true (termsOf (chars (pre +:+ "*" +:+ post))) s = true
               ↔ ∃ u w v, s = u ++ w ++ v ∧ sameUpToCase (chars pre) u
                          ∧ w ≠ [] ∧ forallb lineChar w = true
                          ∧ sameUpToCase (chars post) v) as Hsem.
  { intros s. rewrite Hx, termsOf_app.
    change (termsOf ("*"%char :: chars post))
      with ((Dot, OneOrMore) :: termsOf (chars post)).
    rewrite matchTerms_literal_prefix by done. split.
    - intros (u & r & -> & Hu & (w & r' & -> & Hne & Hw & Hr)%matchTerms_dot_plus).
      rewrite <- (app_nil_r (termsOf (chars post))) in Hr.
      apply matchTerms_literal_prefix in Hr
        as (v & r'' & -> & Hv & ->%matchTerms_nil); [|done].
      rewrite app_nil_r. eauto 10.
    - intros (u & w & v & -> & Hu & Hne & Hw & Hv). exists u, (w ++ v).
      split_and!; [done | done |]. apply matchTerms_dot_plus.
      exists w, v. split_and!; [done | done | done |].
      rewrite <- (app_nil_r (termsOf (chars post))).
      apply matchTerms_literal_prefix; [done|].
      exists v, []. by rewrite app_nil_r. }
  eexists. split_and!.
  - apply shouldIgnore_single, routeRegExp_plain. unfold plainRoute.
    rewrite Hx. by apply plain_wildcard.
  - apply Hsem.
  - intros Hlen. apply not_true_is_false.
    intros (u & w & v & Heq & Hu & Hne & _ & Hv)%Hsem.
    rewrite Heq, !length_app in Hlen.
    apply Forall2_length in Hu, Hv. destruct w; [done|]. cbn in Hlen. lia.
Qed.

Lemma wildcard_route_ignores_witness :
  ∃ b, shouldIgnore ["/v1/accounts/" +:+ "*" +:+ "/holder"]%string
         "/v1/accounts/4/2/holder" = Some (Normal b)
       ∧ (b = true
          ↔ ∃ u w v,
              trim (chars "/v1/accounts/4/2/holder") = u ++ w ++ v
              ∧ sameUpToCase (chars "/v1/accounts/") u
              ∧ w ≠ [] ∧ forallb lineChar w = true
              ∧ sameUpToCase (chars "/holder") v)
       ∧ ((length (trim (chars "/v1/accounts/4/2/holder"))
           ≤ length (chars "/v1/accounts/") + length (chars "/holder"))%nat
          → b = false).
Proof.
  apply (wildcard_route_ignores "/v1/accounts/" "/holder"
           "/v1/accounts/4/2/holder"); reflexivity.
Defined.


(** *** More than one wildcard *)

(** Only the first wildcard of a route is replaced. *)
Lemma replace_first_wildcard pre rest :
  literal pre = true →
  replace ["*"%char] (chars ".+") (pre ++ "*"%char :: rest)
  = pre ++ "."%char :: "+"%char :: rest.
Proof.
  induction pre as [|c pre IH]; [done|].
  intros (Hs & Hw & Hpre)%literal_cons. cbn [app].
  rewrite replace_wildcard_skip by done. by rewrite IH.
Qed.

Lemma foldr_consTerm_normal ts ts' :
  foldr consTerm (Some (Normal ts')) ts = Some (Normal (ts ++ ts')).
Proof. induction ts as [|t ts IH]; cbn; [done | by rewrite IH]. Qed.

Lemma foldr_consTerm_abrupt ts e :
  foldr consTerm (Some (Abrupt e)) ts = Some (Abrupt e).
Proof. induction ts as [|t ts IH]; cbn; [done | by rewrite IH]. Qed.

Lemma parseBody_flag q d rest :
  quantifierOf d = None → parseBody q (d :: rest) = parseBody false (d :: rest).
Proof.
  intros Hd. destruct q; [|done]. cbn [parseBody].
  assert (Ascii.eqb d "?" = false) as ->; [|done].
  unfold quantifierOf in Hd.
  destruct (Ascii.eqb d "*"), (Ascii.eqb d "+"), (Ascii.eqb d "?"); done.
Qed.

(** Literal text parses to itself whatever follows, as long as what
    follows does not start with a quantifier. *)
Lemma parseBody_literal_app pre d rest : ∀ q,
  literal pre = true → quantifierOf d = None →
  parseBody q (pre ++ d :: rest)
  = foldr consTerm (parseBody false (d :: rest)) (termsOf pre).
Proof.
  induction pre as [|c pre IH]; intros q Hpre Hd.
  - by apply parseBody_flag.
  - apply literal_cons in Hpre as (Hs & Hw & Hpre).
    rewrite termsOf_literal_cons by done. cbn [foldr app].
    rewrite <- (IH false) by done.
    destruct pre as [|c' pre]; cbn [app].
    + by apply parseBody_literal_step.
    + apply literal_cons in Hpre as (? & ? & _).
      apply parseBody_literal_step; auto using literal_not_quantifier.
Qed.

Lemma dot_not_quantifier : quantifierOf "." = None.
Proof. done. Qed.

Lemma routeRegExp_double_star (pre post : string) :
  literal (chars pre) = true →
  Inbound.routeRegExp (pre +:+ "**" +:+ post) = Some (Abrupt SyntaxError).
Proof.
  intros Hpre. unfold Inbound.routeRegExp, newRegExp. cbn match.
  rewrite !chars_app.
  change (chars "**" ++ chars post) with ("*"%char :: "*"%char :: chars post).
  rewrite replace_first_wildcard by done.
  rewrite <- app_assoc. cbn [app].
  rewrite parseBody_literal_app by done.
  change (parseBody false ("."%char :: "+"%char :: "*"%char
                           :: chars post ++ ["$"%char]))
    with (consTerm (Dot, OneOrMore) (Some (Abrupt SyntaxError))).
  cbn [consTerm]. by rewrite foldr_consTerm_abrupt.
Qed.

(** X7: A route in which the first wildcard is at once followed by another
    one (a glob's double star) makes the RegExp constructor throw,
    whatever comes after. *)
Theorem double_star_route_throws (pre post : string) :
  literal (chars pre) = true →
  Inbound.routeRegExp (pre +:+ "**" +:+ post) = Some (Abrupt SyntaxError).
Proof. intros Hpre. by apply routeRegExp_double_star. Qed.

Lemma double_star_route_throws_witness :
  Inbound.routeRegExp ("/files/" +:+ "**" +:+ "/*.map")
  = Some (Abrupt SyntaxError).
Proof. apply (double_star_route_throws "/files/" "/*.map"). reflexivity. Defined.

(** X8: A second wildcard that follows a literal character is left to the
    RegExp engine as a quantifier: with the route [pre*mid c*], the
    trimmed path must be [pre], one or more characters, [mid], and then
    any number (also none) of the character [c]; nothing else may follow. *)
Theorem second_wildcard_repeats_previous (pre mid : string) (c : ascii) :
  literal (chars pre) = true →
  literal (chars mid) = true →
  literal [c] = true →
  ∃ r,
    Inbound.routeRegExp (pre +:+ "*" +:+ mid +:+ String c "*")
    = Some (Normal r)
    ∧ ∀ s, test r s = true
           ↔ ∃ u w v k,
               s = u ++ w ++ v ++ k
               ∧ sameUpToCase (chars pre) u
               ∧ w ≠ [] ∧ forallb lineChar w = true
               ∧ sameUpToCase (chars mid) v
               ∧ Forall (λ d, sameChar true c d = true) k.
Proof.
  intros Hpre Hmid Hc.
  apply literal_cons in Hc as (Hcs & Hcw & _).
  exists (mkRegExp (termsOf (chars pre) ++ (Dot, OneOrMore)
                    :: termsOf (chars mid) ++ [(Lit c, ZeroOrMore)]) true).
  split.
  - unfold Inbound.routeRegExp, newRegExp. cbn match.
    rewrite !chars_app.
    change (chars "*" ++ chars mid ++ chars (String c "*"))
      with ("*"%char :: chars mid ++ [c; "*"%char]).
    rewrite replace_first_wildcard by done.
    rewrite <- app_assoc. cbn [app].
    rewrite parseBody_literal_app by done.
    assert (parseBody false
              ("."%char :: "+"%char :: (chars mid ++ [c; "*"%char])
                                        ++ ["$"%char])
            = Some (Normal ((Dot, OneOrMore) :: termsOf (chars mid)
                            ++ [(Lit c, ZeroOrMore)]))) as ->.
    { change (parseBody false ("."%char :: "+"%char :: ?x))
        with (consTerm (Dot, OneOrMore) (parseBody true x)).
      rewrite <- app_assoc. cbn [app].
      rewrite parseBody_literal_app
        by auto using literal_not_quantifier.
      destruct (literal_char c Hcs Hcw) as (H0 & H1 & H2 & H3 & H4 & H5).
      assert (parseBody false [c; "*"%char; "$"%char]
              = Some (Normal [(Lit c, ZeroOrMore)])) as ->.
      { cbn [parseBody]. by rewrite H0, H1, H2, H3, H4, H5. }
      by rewrite foldr_consTerm_normal. }
    by rewrite foldr_consTerm_normal.
  - intros s. unfold test. cbn [terms ignoreCase].
    rewrite matchTerms_literal_prefix by done. split.
    + intros (u & r & -> & Hu & (w & r' & -> & Hne & Hw & Hr)%matchTerms_dot_plus).
      apply matchTerms_literal_prefix in Hr
        as (v & k & -> & Hv & Hk%matchTerms_char_star); [|done].
      eauto 12.
    + intros (u & w & v & k & -> & Hu & Hne & Hw & Hv & Hk).
      exists u, (w ++ v ++ k). split_and!; [done | done |].
      apply matchTerms_dot_plus. exists w, (v ++ k).
      split_and!; [done | done | done |].
      apply matchTerms_literal_prefix; [done|].
      exists v, k. split_and!; [done | done |].
      by apply matchTerms_char_star.
Qed.

Lemma second_wildcard_repeats_previous_witness :
  ∃ r,
    Inbound.routeRegExp ("/v1/" +:+ "*" +:+ "/items" +:+ String "/" "*")
    = Some (Normal r)
    ∧ test r (chars "/v1/a/items//") = true
    ∧ test r (chars "/v1/a/items") = true
    ∧ test r (chars "/v1/a/items/b") = false.
Proof.
  destruct (second_wildcard_repeats_previous "/v1/" "/items" "/"
              eq_refl eq_refl eq_refl) as (r & Hr & _).
  exists r. split; [exact Hr|].
  injection Hr as <-. split_and!; reflexivity.
Defined.

End RouteExtras.

(** ** Emissions, cells and the chain *)
Module CaptureExtras.
Import Js Express Lifecycle Serving CaptureFacts.

Section Single.
Context {F : Framework}.
Implicit Types (st : State F) (m : Method) (b : Value) (op : Op).

Lemma other_ne op : other op ≠ op.
Proof. by destruct op. Qed.

Lemma ne_other op op' : op' ≠ op → op' = other op.
Proof. by destruct op, op'. Qed.

Lemma call_original op b st :
  slot op (res st) = Original →
  cells (call op b st).2 = cells st ∧ res (call op b st).2 = res st.
Proof.
  unfold call. intros ->. cbn [run].
  by destruct (original op b (world st)).
Qed.

Lemma call_restores_slot op b b' st :
  slot op (res (call op b st).2) = Original
  ∧ slot (other op) (res (call op b st).2) = slot (other op) (res st)
  ∧ cells (call op b' (call op b st).2).2 = cells (call op b st).2.
Proof.
  assert (slot op (res (call op b st).2) = Original) as Hs.
  { unfold call. rewrite run_slot_same.
    by destruct (slot op (res st)) eqn:E. }
  split_and!; [done | |].
  - unfold call. apply run_slot_other, other_ne.
  - by apply call_original.
Qed.


(** Once both slots hold the framework's functions no emission changes a
    cell. *)
Lemma calls_original cs : ∀ st,
  send (res st) = Original → json (res st) = Original →
  cells (calls cs st).2 = cells st.
Proof.
  induction cs as [|[op b] cs IH]; intros st Hsend Hjson; [done|].
  rewrite calls_cons_snd.
  assert (slot op (res st) = Original) as Hop by by destruct op.
  destruct (call_original op b st Hop) as [Hc Hr].
  rewrite IH; [done | by rewrite Hr | by rewrite Hr].
Qed.

Lemma both_original op st :
  slot op (res st) = Original → slot (other op) (res st) = Original →
  send (res st) = Original ∧ json (res st) = Original.
Proof. by destruct op. Qed.

(** While one slot still captures into a falsy cell: emissions through
    the other operation pass by, the first one through this slot writes. *)
Lemma calls_pending op1 c m2 b1 rest : ∀ st,
  slot op1 (res st) = Original →
  slot (other op1) (res st) = Capture c m2 →
  (c < length (cells st))%nat →
  readCell c st = b1 →
  truthy b1 = false →
  readCell c (calls rest st).2
  = match list_find (λ ob : Op * Value, ob.1 ≠ op1) rest with
    | Some (_, (_, b)) => b
    | None => b1
    end.
Proof.
  induction rest as [|[op b] rest IH]; intros st H1 H2 Hc Hb1 Hf; [done|].
  rewrite calls_cons_snd. cbn [list_find]. case_decide as Hop; cbn in Hop.
  - apply ne_other in Hop as ->. cbn.
    pose proof (call_records (other op1) c m2 b st H2 Hc) as Hrec.
    rewrite Hb1, Hf in Hrec.
    destruct (call_restores_slot (other op1) b b st) as (Hs & Ho & _).
    replace (other (other op1)) with op1 in Ho by by destruct op1.
    rewrite H1 in Ho.
    destruct (both_original op1 _ Ho Hs) as [Hsend Hjson].
    unfold readCell. rewrite calls_original by done. exact Hrec.
  - assert (op = op1) as -> by by destruct (decide (op = op1)).
    destruct (call_original op1 b st H1) as [Hcells Hres].
    rewrite IH; [|by rewrite Hres|by rewrite Hres|by rewrite Hcells
                 |by unfold readCell; rewrite Hcells|done].
    by destruct (list_find _ rest) as [[i [o v]]|].
Qed.

Lemma readCell_expectedCapture (mw : Middleware) (now : Z) (req : Request) st
    (cs : list (Op * Value)) :
  skips mw req = false →
  readCell (length (cells st)) (calls cs (handle mw now req st)).2
  = expectedCapture cs.
Proof.
  intros Hskip. rewrite handle_intercepted by done.
  set (c := length (cells st)). set (l := listenerOf mw now req c).
  destruct (intercepted_cell c l st eq_refl) as [Hin Hnull].
  destruct cs as [|[op1 b1] rest]; [done|].
  rewrite calls_cons_snd. cbn [expectedCapture].
  pose proof (call_records op1 c (slot op1 (res st)) b1 (intercepted c l st)
                (intercepted_slot c l st op1) Hin) as Hrec.
  rewrite Hnull in Hrec. cbn in Hrec.
  destruct (call_frame op1 b1 (intercepted c l st)) as [_ Hlen].
  destruct (truthy b1) eqn:Hb1.
  - apply calls_keep_cell; [by rewrite Hlen | done | done].
  - destruct (call_restores_slot op1 b1 b1 (intercepted c l st))
      as (Hs & Ho & _).
    rewrite intercepted_slot in Ho.
    by apply (calls_pending op1 c (slot (other op1) (res st)));
      [done | done | rewrite Hlen | done | done].
Qed.

(** X10: What the cell of a [use] holds after any sequence of emissions. *)
Theorem captured_value (mw : Middleware) (now : Z) (req : Request) st
    (cs : list (Op * Value)) :
  skips mw req = false →
  readCell (length (cells st)) (calls cs (handle mw now req st)).2
  = expectedCapture cs.
Proof. intros Hskip. by apply readCell_expectedCapture. Qed.

End Single.

Lemma captured_value_witness :
  readCell 0
    (calls [(Send, Number 0); (Send, Str "late"); (Json, Str "0")]
       (handle (F:=recorder) Fixtures.noMatcher 0 (requestFor "/v1/users")
          (freshState (F:=recorder) Fixtures.okResponse []))).2
  = Str "0".
Proof.
  apply (captured_value (F:=recorder) Fixtures.noMatcher 0
           (requestFor "/v1/users")
           (freshState (F:=recorder) Fixtures.okResponse [])
           [(Send, Number 0); (Send, Str "late"); (Json, Str "0")]).
  reflexivity.
Defined.


(** *** The whole chain *)

Section Chain.
Context {F : Framework}.
Implicit Types (st : State F) (m : Method) (b : Value) (op : Op).

Lemma handle_skips (mw : Middleware) now req st :
  skips mw req = true → handle mw now req st = next st.
Proof.
  destruct mw as [name rs|]; cbn [skips handle]; [|done].
  intros Hs. unfold Inbound.use. by rewrite Hs.
Qed.

Lemma serve_snoc chain mt req st :
  serve (chain ++ [mt]) req st
  = handle mt.1 mt.2 req (serve chain req st).
Proof. unfold serve. by rewrite foldl_app. Qed.

Lemma active_snoc chain mt req :
  active (chain ++ [mt]) req
  = active chain req ++ (if skips mt.1 req then [] else [mt]).
Proof.
  unfold active. rewrite filter_app. f_equal.
  destruct (skips mt.1 req) eqn:E.
  - by rewrite filter_cons_False by (cbn; congruence).
  - by rewrite filter_cons_True by done.
Qed.

Lemma intercepted_cells c l st :
  cells (intercepted c l st) = cells st ++ [Null].
Proof. done. Qed.

(** A capture nested anywhere in the slot records like the outermost. *)
Lemma run_capture_member op c b m : ∀ st,
  c ∈ captures m →
  (c < length (cells st))%nat →
  readCell c (run op m b st).2
  = if truthy (readCell c st) then readCell c st else b.
Proof.
  induction m as [|c' saved IH]; intros st Hin Hc; cbn [captures] in Hin.
  - by apply elem_of_nil in Hin.
  - destruct (decide (c = c')) as [<-|Hne].
    + cbn [run]. apply run_keeps_cell.
      * destruct (negb (truthy (readCell c st))), op; cbn;
          rewrite ?length_insert; done.
      * rewrite readCell_setSlot.
        destruct (truthy (readCell c st)); cbn; [done|].
        by apply readCell_writeCell_same.
      * destruct (truthy (readCell c st)) eqn:Ht; auto.
    + apply elem_of_cons in Hin as [?|Hin]; [done|]. cbn [run].
      rewrite IH; [|done|].
      * rewrite readCell_setSlot.
        destruct (negb (truthy (readCell c' st))); [|done].
        by rewrite readCell_writeCell_other.
      * destruct (negb (truthy (readCell c' st))), op; cbn;
          rewrite ?length_insert; done.
Qed.

Lemma fire_entry t st l :
  ∃ e, sink (fire t st l) = sink st ++ [e]
       ∧ loggedBody e = readCell (cellOf l) st
       ∧ context e = loggerOf l
       ∧ cells (fire t st l) = cells st ∧ res (fire t st l) = res st.
Proof. destruct l; cbn; eexists; split_and!; done. Qed.

(** The completion notification adds one entry per callback, in the order
    of registration. *)
Lemma finish_entries t ls : ∀ st,
  loggedBody <$> sink (foldl (fire t) st ls)
  = (loggedBody <$> sink st) ++ ((λ l, readCell (cellOf l) st) <$> ls)
  ∧ context <$> sink (foldl (fire t) st ls)
    = (context <$> sink st) ++ (loggerOf <$> ls).
Proof.
  induction ls as [|l ls IH]; intros st; cbn [foldl fmap list_fmap].
  - by rewrite !app_nil_r.
  - destruct (IH (fire t st l)) as [-> ->].
    destruct (fire_entry t st l) as (e & -> & Hb & Hc & Hcells & _).
    rewrite !fmap_app. cbn. rewrite Hb, Hc, <- !app_assoc. cbn.
    split; [|done]. do 2 f_equal. apply list_fmap_ext.
    intros _ l' _. unfold readCell. by rewrite Hcells.
Qed.

Lemma imap_constant {A B C} (g : nat → A → B) (h : B → C) (y : C) l :
  (∀ i x, l !! i = Some x → h (g i x) = y) →
  h <$> imap g l = replicate (length l) y.
Proof.
  revert g. induction l as [|x l IH]; intros g Hg; [done|].
  rewrite imap_cons. cbn. rewrite (Hg 0%nat x) by done. f_equal.
  apply IH. intros i x' Hi. by apply (Hg (S i)).
Qed.

Lemma imap_pointwise {A B C} (g : nat → A → B) (h : B → C) (h' : A → C) l :
  (∀ i x, h (g i x) = h' x) → h <$> imap g l = h' <$> l.
Proof.
  revert g. induction l as [|x l IH]; intros g Hg; [done|].
  rewrite imap_cons. cbn. rewrite Hg. f_equal. apply IH.
  intros i x'. apply Hg.
Qed.

(** The state the chain leaves on a response the framework just made. *)
Lemma serve_fresh chain req status message hs (w : World) :
  let st := serve chain req (freshState (freshResponse status message hs) w) in
  let act := active chain req in
  cells st = replicate (length act) Null
  ∧ (∀ op c, (c < length act)%nat → c ∈ captures (slot op (res st)))
  ∧ finishListeners (res st)
    = imap (λ i mt, listenerOf mt.1 mt.2 req i) act
  ∧ sink st = []
  ∧ nextCalls st = length chain
  ∧ statusCode (res st) = status.
Proof.
  induction chain as [|mt chain IH] using rev_ind.
  { cbn. split_and!; try done. intros op c Hc. lia. }
  cbn zeta in *. rewrite serve_snoc, active_snoc.
  set (st := serve chain req _) in *. set (act := active chain req) in *.
  destruct IH as (Hcells & Hcapt & Hls & Hsink & Hnext & Hstatus).
  destruct (skips mt.1 req) eqn:Hs.
  - rewrite handle_skips, app_nil_r by done.
    split_and!; try done. cbn. rewrite Hnext, length_app. cbn. lia.
  - rewrite handle_intercepted by done.
    assert (length (cells st) = length act) as Hlen
      by by rewrite Hcells, length_replicate.
    rewrite Hlen, length_app. cbn [length].
    replace (length act + 1)%nat with (S (length act)) by lia.
    split_and!.
    + rewrite intercepted_cells, Hcells. symmetry. apply replicate_S_end.
    + intros op c Hc. rewrite intercepted_slot. cbn [captures].
      apply elem_of_cons.
      destruct (decide (c = length act)); [by left | right].
      apply Hcapt. lia.
    + rewrite intercepted_listeners, Hls, imap_app. cbn.
      by rewrite Nat.add_0_r.
    + done.
    + cbn. rewrite Hnext, length_app. cbn. lia.
    + done.
Qed.

End Chain.

Lemma serve_logs_first_body (F : Framework)
    (chain : list (Middleware * Z)) (req : Request) (status : Z)
    (message : string) (hs : Value) (w : World) (op : Op) (b : Value)
    (rest : list (Op * Value)) (t : Z) :
  truthy b = true →
  let st := serve chain req (freshState (freshResponse status message hs) w) in
  let st' := (calls ((op, b) :: rest) st).2 in
  sink st' = []
  ∧ nextCalls st' = length chain
  ∧ loggedBody <$> sink (finish t st')
    = replicate (length (active chain req)) b
  ∧ context <$> sink (finish t st')
    = (λ mt, contextOf mt.1) <$> active chain req.
Proof.
  intros Hb st st'.
  destruct (serve_fresh chain req status message hs w)
    as (Hcells & Hcapt & Hls & Hsink & Hnext & _).
  fold st in Hcells, Hcapt, Hls, Hsink, Hnext.
  destruct (calls_frame ((op, b) :: rest) st)
    as (Hsink' & Hnext' & Hls' & _ & Hlen').
  fold st' in Hsink', Hnext', Hls', Hlen'.
  assert (length (cells st) = length (active chain req)) as Hlen
    by by rewrite Hcells, length_replicate.
  assert (∀ c, (c < length (active chain req))%nat → readCell c st' = b)
    as Hall.
  { intros c Hc. unfold st'. rewrite calls_cons_snd.
    assert (readCell c (call op b st).2 = b) as Hfirst.
    { unfold call. rewrite run_capture_member; [|by apply Hcapt|lia].
      unfold readCell. by rewrite Hcells, lookup_replicate_2. }
    apply calls_keep_cell; [|done|done].
    destruct (call_frame op b st) as [_ ->]. lia. }
  destruct (finish_entries t (finishListeners (res st')) st') as [Hbodies Hctx].
  unfold finish. rewrite Hbodies, Hctx, Hsink', Hsink, Hls', Hls. cbn [fmap list_fmap app].
  split_and!; [done | congruence | |].
  - rewrite (imap_constant _ _ b); [done|].
    intros i mt Hi. destruct mt as [[name rs|] now]; cbn;
      apply Hall; by eapply lookup_lt_Some.
  - apply imap_pointwise. by intros i [[name rs|] now].
Qed.

(** X11: With any number of middlewares registered, a truthy first body ends
    up in the log once for every middleware that did not skip the request,
    in the order of the chain and under the logger of each; nothing is
    logged before the completion notification, and the continuation was
    called once per middleware. *)
Theorem chain_logs_first_body (F : Framework)
    (chain : list (Middleware * Z)) (req : Request) (status : Z)
    (message : string) (hs : Value) (w : World) (op : Op) (b : Value)
    (rest : list (Op * Value)) (t : Z) :
  truthy b = true →
  let st := serve chain req (freshState (freshResponse status message hs) w) in
  let st' := (calls ((op, b) :: rest) st).2 in
  sink st' = []
  ∧ nextCalls st' = length chain
  ∧ loggedBody <$> sink (finish t st')
    = replicate (length (active chain req)) b
  ∧ context <$> sink (finish t st')
    = (λ mt, contextOf mt.1) <$> active chain req.
Proof. intros Hb. by apply serve_logs_first_body. Qed.

Lemma chain_logs_first_body_witness :
  let health := mkRegExp (Contract.termsOf (chars "/health")) true in
  let st :=
    serve (F:=recorder)
      [(InboundInspector Inbound.className [health], 3); (AuditLogger, 4)]
      (requestFor "/health")
      (freshState (F:=recorder) Fixtures.okResponse []) in
  Inbound.compileRoutes ["/health"]%string = Some (Normal [health])
  ∧ context <$> sink (finish 9 (calls [(Send, Str "up")] st).2)
    = ["LogHttpMiddleware"]%string.
Proof.
  intros health st. split; [reflexivity|].
  destruct (chain_logs_first_body recorder
              [(InboundInspector Inbound.className [health], 3);
               (AuditLogger, 4)]
              (requestFor "/health") 200 "OK" (Object []) [] Send (Str "up")
              [] 9 eq_refl) as (_ & _ & _ & Hctx).
  exact Hctx.
Defined.

(** X12: Any number of middlewares on top of each other stay transparent:
    every emission returns what the response returned before they were
    added, and does to the framework what it did. *)
Theorem chain_is_transparent (F : Framework) (chain : list (Middleware * Z))
    (req : Request) (st : State F) (cs : list (Op * Value)) :
  (calls cs (serve chain req st)).1 = (calls cs st).1
  ∧ world (calls cs (serve chain req st)).2 = world (calls cs st).2.
Proof.
  induction chain as [|mt chain IH] using rev_ind; [done|].
  rewrite serve_snoc. destruct IH as [<- <-].
  destruct (calls_shadow (length (cells (serve chain req st))) cs
              (handle mt.1 mt.2 req (serve chain req st))
              (serve chain req st)
              (handle_shadows mt.1 mt.2 req (serve chain req st)))
    as (Hr & Hw & _).
  done.
Qed.

(** X13: No [use] and no emission writes to the log, and every [use], skipping
    or not, calls the continuation exactly once. *)
Theorem nothing_logged_before_completion (F : Framework)
    (chain : list (Middleware * Z)) (req : Request) (st : State F)
    (cs : list (Op * Value)) :
  sink (serve chain req st) = sink st
  ∧ sink (calls cs (serve chain req st)).2 = sink st
  ∧ nextCalls (calls cs (serve chain req st)).2
    = (nextCalls st + length chain)%nat.
Proof.
  assert (sink (serve chain req st) = sink st
          ∧ nextCalls (serve chain req st) = (nextCalls st + length chain)%nat)
    as [Hs Hn].
  { induction chain as [|mt chain IH] using rev_ind; [cbn; split; [done | lia]|].
    rewrite serve_snoc, length_app. destruct IH as [<- IHn].
    destruct (skips mt.1 req) eqn:Hskip.
    - rewrite handle_skips by done. cbn. split; [done | lia].
    - rewrite handle_intercepted by done. cbn. split; [done | lia]. }
  destruct (calls_frame cs (serve chain req st)) as (-> & -> & _).
  done.
Qed.

(** X14: The entry a middleware writes at completion, on a response the
    framework just made: exactly one, at the level of the status code,
    under the middleware's logger, carrying the captured body; the elapsed
    time is there for the inbound inspector only. *)
Theorem completion_entry (F : Framework) (mw : Middleware) (now t : Z)
    (req : Request) (status : Z) (message : string) (hs : Value)
    (w : World) (cs : list (Op * Value)) :
  skips mw req = false →
  let st' :=
    (calls cs
       (handle mw now req
          (freshState (freshResponse status message hs) w))).2 in
  ∃ e,
    sink (finish t st') = [e]
    ∧ level e = Contract.severity status
    ∧ context e = contextOf mw
    ∧ loggedBody e = expectedCapture cs
    ∧ field "statusCode" (field "response" (payload e)) = Number status
    ∧ field "executionTime" (payload e)
      = match mw with
        | InboundInspector _ _ => Str (pretty (t - now) +:+ "ms")
        | AuditLogger => Undefined
        end.
Proof.
  intros Hskip.
  set (st0 := freshState (freshResponse status message hs) w).
  pose proof (readCell_expectedCapture mw now req st0 cs Hskip) as Hcap.
  change (length (cells st0)) with 0%nat in Hcap.
  destruct (calls_frame cs (handle mw now req st0))
    as (Hsink & _ & Hls & Hstatus & _).
  intros st'. fold st' in Hcap, Hsink, Hls, Hstatus.
  rewrite handle_intercepted in Hsink, Hls, Hstatus by done.
  cbn in Hsink, Hls, Hstatus.
  unfold finish. rewrite Hls. cbn [foldl].
  destruct mw as [name rs|]; cbn [listenerOf fire].
  - eexists. unfold Inbound.finishCallback, emitLog. cbn [sink].
    rewrite Hsink. split; [reflexivity|]. cbn.
    rewrite Hcap, Hstatus. split_and!; try done.
    destruct (LevelFacts.getLogLevel_severity (res st')) as [-> _].
    by rewrite Hstatus.
  - eexists. unfold Audit.finishCallback, emitLog. cbn [sink].
    rewrite Hsink. split; [reflexivity|]. cbn.
    rewrite Hcap, Hstatus. split_and!; try done.
    destruct (LevelFacts.getLogLevel_severity (res st')) as [_ ->].
    by rewrite Hstatus.
Qed.

Lemma completion_entry_witness :
  ∃ e,
    sink (finish 107
            (calls [(Json, Object [("statusCode", Number 404)])]
               (handle (F:=recorder) Fixtures.noMatcher 100
                  (requestFor "/missing")
                  (freshState (F:=recorder)
                     (freshResponse 404 "Not Found" (Object [])) []))).2)
    = [e]
    ∧ level e = warn
    ∧ field "executionTime" (payload e) = Str "7ms".
Proof.
  destruct (completion_entry recorder Fixtures.noMatcher 100 107
              (requestFor "/missing") 404 "Not Found" (Object []) []
              [(Json, Object [("statusCode", Number 404)])] eq_refl)
    as (e & Hsink & Hlevel & _ & _ & _ & Htime).
  exists e. split_and!; [exact Hsink | exact Hlevel | exact Htime].
Defined.

End CaptureExtras.

(** ** Configuration, end to end *)
Module ConfigExtras.
Import Js Express Lifecycle Serving Inbound Contract.
Import RouteFacts RouteExtras CaptureFacts CaptureExtras ConfigFacts.




(** X16: With inspection on and routes that have at most one wildcard and no
    RegExp syntax, the configuration logs its two entries, keeps the
    configuration source and the middlewares already there, and adds one
    inspector last; that inspector skips exactly the requests whose
    trimmed path matches one of the routes. *)
Theorem configured_inspector_skips_matching (routes : list string)
    (app : App) (logged : list LogEntry) :
  Forall (λ x, plainRoute x = true) routes →
  includes ["all"; "inbound"]%string (configGet modeKey (Str "inbound") app)
  = true →
  ∃ mw,
    configureHttpInspectorInbound
      (Some (mkInspectionOptions (Some routes))) app logged
    = Some (Normal (mkApp (config app) (middlewares app ++ [mw])),
            logged ++ [ignoreRoutesEntry routes; initializedEntry])
    ∧ ∀ req, skips mw req = true ↔ ShouldIgnore lineChar routes (path req).
Proof.
  intros Hplain Hmode. eexists. split.
  - unfold configureHttpInspectorInbound. rewrite Hmode. cbn [negb].
    change (ignoreRoutesOf (Some (mkInspectionOptions (Some routes))))
      with routes.
    rewrite compileRoutes_plain by done. cbn [truthy].
    unfold appUse. by rewrite <- app_assoc.
  - intros req. cbn [skips]. apply shouldIgnoreRoute_termsOf.
Qed.

Lemma configured_inspector_skips_matching_witness :
  ∃ mw,
    configureHttpInspectorInbound
      (Some (mkInspectionOptions (Some ["/v1/accounts/*"]%string)))
      (Fixtures.appWithMode "all") []
    = Some (Normal (mkApp (config (Fixtures.appWithMode "all"))
                      (middlewares (Fixtures.appWithMode "all") ++ [mw])),
            [] ++ [ignoreRoutesEntry ["/v1/accounts/*"]%string;
                   initializedEntry])
    ∧ ∀ req, skips mw req = true
             ↔ ShouldIgnore lineChar ["/v1/accounts/*"]%string (path req).
Proof.
  apply (configured_inspector_skips_matching ["/v1/accounts/*"]%string
           (Fixtures.appWithMode "all") []); [|reflexivity].
  repeat constructor.
Defined.

(** X17: Inspector and audit logger configured one after the other on an
    application without middlewares: a request with a truthy first body
    is logged by both, inspector first, unless its path is ignored, in
    which case the audit logger alone logs it. *)
Theorem both_configured_log (F : Framework)
    (opts : option InspectionOptions) (app : App) (logged : list LogEntry)
    (rs : list RegExp) (req : Request) (status : Z) (message : string)
    (hs : Value) (w : World) (op : Op) (b : Value)
    (rest : list (Op * Value)) (now t : Z) :
  middlewares app = [] →
  includes ["all"; "inbound"]%string (configGet modeKey (Str "inbound") app)
  = true →
  compileRoutes (ignoreRoutesOf opts) = Some (Normal rs) →
  truthy b = true →
  ∃ app1 logged1,
    configureHttpInspectorInbound opts app logged
    = Some (Normal app1, logged1)
    ∧ let app2 := Audit.configureLogHttpMiddleware app1 in
      let st' :=
        (calls ((op, b) :: rest)
           (serve (chainOf app2 now) req
              (freshState (freshResponse status message hs) w))).2 in
      context <$> sink (finish t st')
      = (if shouldIgnoreRoute rs req then []
         else [Inbound.loggerContext]) ++ [Audit.loggerContext]
      ∧ Forall (λ e, loggedBody e = b) (sink (finish t st')).
Proof.
  intros Hnone Hmode Hrs Hb.
  destruct (configure_enabled opts app logged Hmode) as [l1 Hconf].
  rewrite Hrs in Hconf. do 2 eexists. split; [exact Hconf|].
  intros app2 st'.
  assert (chainOf app2 now
          = [(InboundInspector className rs, now); (AuditLogger, now)])
    as Hchain.
  { unfold chainOf, app2. cbn. by rewrite Hnone. }
  destruct (serve_logs_first_body F (chainOf app2 now) req status message hs
              w op b rest t Hb) as (_ & _ & Hbodies & Hctx).
  fold st' in Hbodies, Hctx. rewrite Hchain in Hbodies, Hctx.
  split.
  - rewrite Hctx. unfold active.
    rewrite filter_cons, filter_cons_True, filter_nil by done.
    cbn [fst skips]. by destruct (shouldIgnoreRoute rs req); cbn.
  - assert (Forall (λ v, v = b) (loggedBody <$> sink (finish t st'))) as H.
    { rewrite Hbodies. apply Forall_forall.
      intros x Hx. by apply elem_of_replicate in Hx as [-> _]. }
    by apply Forall_fmap in H.
Qed.

Lemma both_configured_log_witness :
  ∃ app1 logged1,
    configureHttpInspectorInbound (Fixtures.routes ["/health"]%string)
      Fixtures.appUnset [] = Some (Normal app1, logged1)
    ∧ context <$>
        sink (finish 9
                (calls [(Json, Object [("ok", Bool true)])]
                   (serve (F:=recorder)
                      (chainOf (Audit.configureLogHttpMiddleware app1) 2)
                      (requestFor "/v1/users")
                      (freshState (F:=recorder) Fixtures.okResponse []))).2)
      = ["InboundHTTPInspection"; "LogHttpMiddleware"]%string.
Proof.
  destruct (both_configured_log recorder
              (Fixtures.routes ["/health"]%string) Fixtures.appUnset []
              [mkRegExp (termsOf (chars "/health")) true]
              (requestFor "/v1/users") 200 "OK" (Object []) [] Json
              (Object [("ok", Bool true)]) [] 2 9
              eq_refl eq_refl eq_refl eq_refl)
    as (app1 & logged1 & Hconf & Hctx & _).
  exists app1, logged1. split; [exact Hconf | exact Hctx].
Defined.

End ConfigExtras.

(** ** Severity, again *)
Module LevelExtras.
Import Js Express Serving.

(** X18: The level depends on the status code only, and never goes down as
    the status code goes up; that holds for both classes. *)
Theorem getLogLevel_monotone (r r' : Response) :
  statusCode r <= statusCode r' →
  (rank (Inbound.getLogLevel r) ≤ rank (Inbound.getLogLevel r'))%nat
  ∧ (rank (Audit.getLogLevel r) ≤ rank (Audit.getLogLevel r'))%nat
  ∧ (statusCode r = statusCode r' →
     Inbound.getLogLevel r = Inbound.getLogLevel r'
     ∧ Audit.getLogLevel r = Audit.getLogLevel r').
Proof.
  intros Hle.
  destruct (LevelFacts.getLogLevel_severity r) as [-> ->].
  destruct (LevelFacts.getLogLevel_severity r') as [-> ->].
  split_and!.
  - unfold Contract.severity. repeat case_decide; cbn; lia.
  - unfold Contract.severity. repeat case_decide; cbn; lia.
  - by intros ->.
Qed.

Lemma getLogLevel_monotone_witness :
  (rank (Inbound.getLogLevel (Fixtures.withStatus 404))
   ≤ rank (Inbound.getLogLevel (Fixtures.withStatus 502)))%nat
  ∧ (rank (Audit.getLogLevel (Fixtures.withStatus 404))
     ≤ rank (Audit.getLogLevel (Fixtures.withStatus 502)))%nat.
Proof.
  destruct (getLogLevel_monotone (Fixtures.withStatus 404)
              (Fixtures.withStatus 502)) as (H1 & H2 & _).
  - cbn. lia.
  - split; [exact H1 | exact H2].
Defined.

End LevelExtras.
